(** * fix_tree_origin.py: recentring a Blender scene on its base centre

    A shallow embedding of [src/fix_tree_origin.py] and the properties of
    its bounding-box reduction, its offset, the translation of the objects
    and the texture copy loop.

    Numbers.  A float is modelled by [pyfloat]: the finite values are
    rationals, and [inf], [-inf] and [nan] are kept with their IEEE 754
    behaviour (the script starts its accumulators at [float('inf')] and
    [float('-inf')]).  Equality of floats is equality of the rationals they
    denote, [feq].  The values that mathutils stores (the components of a
    [Vector], the result of [Matrix @ Vector], the result of [+=] on a
    [Vector]) are binary32 numbers: they are rounded to nearest, ties to
    even, by [f32].  The binary64 arithmetic on these values (lines 40-41
    and 71-76 of the script, and the sum that [@] accumulates before it
    stores it) is taken as exact.

    Scene.  An object carries what the script reads and writes: its name,
    its type, the eight corners of its local bounding box, its world
    matrix as last evaluated by the host, and its location.  Line 52 writes
    the location only; the world matrix follows when the host evaluates
    the scene again.  The disk is a finite map from a path to the regular
    file, with its contents and permission bits, or the directory that the
    path names. *)

From Stdlib Require Import QArith Qabs Qround Qpower Lqa Lia ZArith List Permutation Ascii String Bool.
From stdpp Require Import gmap strings.

Local Open Scope Q_scope.

(** ** Python floats *)

Inductive pyfloat : Type :=
| NaN
| NInf
| Fin (q : Q)
| PInf.

Definition Qltb (a b : Q) : bool := negb (Qle_bool b a).

(** [a < b] on floats: every comparison with [nan] is false. *)
Definition flt (a b : pyfloat) : bool :=
  match a, b with
  | NaN, _ | _, NaN => false
  | NInf, NInf => false
  | NInf, _ => true
  | Fin _, NInf => false
  | Fin p, Fin q => Qltb p q
  | Fin _, PInf => true
  | PInf, _ => false
  end.

(** The builtin [min(a, b)]: the first argument is kept unless the second
    is strictly smaller. *)
Definition pymin (a b : pyfloat) : pyfloat := if flt b a then b else a.

(** The builtin [max(a, b)]: the first argument is kept unless the second
    is strictly greater. *)
Definition pymax (a b : pyfloat) : pyfloat := if flt a b then b else a.

Definition fneg (a : pyfloat) : pyfloat :=
  match a with
  | NaN => NaN
  | NInf => PInf
  | Fin q => Fin (- q)
  | PInf => NInf
  end.

Definition fadd (a b : pyfloat) : pyfloat :=
  match a, b with
  | NaN, _ | _, NaN => NaN
  | PInf, NInf | NInf, PInf => NaN
  | PInf, _ | _, PInf => PInf
  | NInf, _ | _, NInf => NInf
  | Fin p, Fin q => Fin (p + q)
  end.

(** The sign of a rational, for products with an infinity. *)
Definition Qsgn (q : Q) : comparison := (Qnum q ?= 0)%Z.

Definition finf (s : comparison) (positive : bool) : pyfloat :=
  match s with
  | Eq => NaN
  | Gt => if positive then PInf else NInf
  | Lt => if positive then NInf else PInf
  end.

Definition fmul (a b : pyfloat) : pyfloat :=
  match a, b with
  | NaN, _ | _, NaN => NaN
  | Fin p, Fin q => Fin (p * q)
  | PInf, PInf | NInf, NInf => PInf
  | PInf, NInf | NInf, PInf => NInf
  | PInf, Fin q | Fin q, PInf => finf (Qsgn q) true
  | NInf, Fin q | Fin q, NInf => finf (Qsgn q) false
  end.

(** [a / d] for a finite divisor [d] that is not zero: the literal [2] of
    line 40 and the corner count of line 75, which is tested before. *)
Definition fdivq (a : pyfloat) (d : Q) : pyfloat :=
  match a with
  | NaN => NaN
  | Fin p => Fin (p / d)
  | PInf => finf (Qsgn d) true
  | NInf => finf (Qsgn d) false
  end.

(** Equality of the denoted values, and the order on them. *)
Definition feq (a b : pyfloat) : Prop :=
  match a, b with
  | NaN, NaN | NInf, NInf | PInf, PInf => True
  | Fin p, Fin q => p == q
  | _, _ => False
  end.

Definition fle (a b : pyfloat) : Prop :=
  match a, b with
  | NaN, _ | _, NaN => False
  | NInf, _ | _, PInf => True
  | Fin p, Fin q => p <= q
  | _, _ => False
  end.

Definition is_nan (a : pyfloat) : bool :=
  match a with NaN => true | _ => false end.

Definition finite (a : pyfloat) : bool :=
  match a with Fin _ => true | _ => false end.

Definition not_nan (a : pyfloat) : Prop := is_nan a = false.


(** ** binary32 *)

Definition pow2 (k : Z) : Q := 2 ^ k.

(** The exponent [e] with [2^e <= |q| < 2^(e+1)], for [q] other than 0. *)
Definition ilog2 (q : Q) : Z :=
  let c := (Z.log2 (Z.abs (Qnum q)) - Z.log2 (Zpos (Qden q)))%Z in
  if Qle_bool (pow2 c) (Qabs q) then c else (c - 1)%Z.

(** The nearest integer, ties to even. *)
Definition round_half_even (s : Q) : Z :=
  let f := Qfloor s in
  match Qcompare (s - inject_Z f) (1 # 2) with
  | Lt => f
  | Gt => (f + 1)%Z
  | Eq => if Z.even f then f else (f + 1)%Z
  end.

(** The exponent of the unit in the last place of a binary32 number near
    [q]: 24 bits of precision, gradual underflow below [2^-126]. *)
Definition ulp_exp (q : Q) : Z := Z.max (ilog2 q - 23) (-149).

(** The binary32 number nearest to [q], ties to even; overflow gives an
    infinity. *)
Definition round32 (q : Q) : pyfloat :=
  if Qeq_bool q 0 then Fin 0
  else
    let k := ulp_exp q in
    let r := inject_Z (round_half_even (q / pow2 k)) * pow2 k in
    if Qle_bool (pow2 128) (Qabs r)
    then (if Qle_bool 0 q then PInf else NInf)
    else Fin (Qred r).

(** A value stored as a C [float]. *)
Definition f32 (a : pyfloat) : pyfloat :=
  match a with
  | Fin q => round32 (Qred q)
  | _ => a
  end.

(** The rational [q] is a binary32 number. *)
Definition binary32 (q : Q) : Prop :=
  exists m j : Z,
    q == inject_Z m * pow2 j /\ (Z.abs m < 2 ^ 24)%Z /\ (-149 <= j)%Z /\
    Qabs q < pow2 128.


(** ** mathutils: vectors and matrices *)

Module mathutils.

Record Vector : Type := mkVector { x : pyfloat; y : pyfloat; z : pyfloat }.

(** [mathutils.Vector((a, b, c))]: the components are stored as C floats. *)
Definition Vector3 (a b c : pyfloat) : Vector := mkVector (f32 a) (f32 b) (f32 c).

(** [mathutils.Vector(corner)]. *)
Definition Vector_copy (corner : Vector) : Vector :=
  Vector3 (x corner) (y corner) (z corner).

(** A row of a 4x4 matrix. *)
Record Row : Type := mkRow { c0 : pyfloat; c1 : pyfloat; c2 : pyfloat; c3 : pyfloat }.

(** The three rows of a 4x4 matrix that [Matrix @ Vector] reads when the
    vector has three components. *)
Record Matrix : Type := mkMatrix { r0 : Row; r1 : Row; r2 : Row }.

(** A row applied to [(x, y, z, 1)]: each product is a C float, the sum
    is accumulated in a double from 0 and stored as a C float. *)
Definition dot (r : Row) (v : Vector) : pyfloat :=
  f32 (fadd (fadd (fadd (fadd (Fin 0)
                              (f32 (fmul (c0 r) (x v))))
                        (f32 (fmul (c1 r) (y v))))
                  (f32 (fmul (c2 r) (z v))))
            (f32 (fmul (c3 r) (Fin 1)))).

(** [m @ v]: the vector is completed by a fourth component 1. *)
Definition matmul (m : Matrix) (v : Vector) : Vector :=
  mkVector (dot (r0 m) v) (dot (r1 m) v) (dot (r2 m) v).

(** [v += w], on C floats. *)
Definition iadd (v w : Vector) : Vector :=
  mkVector (f32 (fadd (x v) (x w))) (f32 (fadd (y v) (y w))) (f32 (fadd (z v) (z w))).

End mathutils.

Import mathutils.

Definition veq (v w : Vector) : Prop :=
  feq (x v) (x w) /\ feq (y v) (y w) /\ feq (z v) (z w).

(** No component is [nan]; every component is finite. *)
Definition vnot_nan (v : Vector) : Prop :=
  not_nan (x v) /\ not_nan (y v) /\ not_nan (z v).

Definition vfinite (v : Vector) : Prop :=
  finite (x v) = true /\ finite (y v) = true /\ finite (z v) = true.

(** ** Scene objects *)

(** The eight corners of [obj.bound_box], a [float[8][3]] array. *)
Record BoundBox : Type := mkBoundBox {
  b0 : Vector; b1 : Vector; b2 : Vector; b3 : Vector;
  b4 : Vector; b5 : Vector; b6 : Vector; b7 : Vector
}.

(** Iterating over [obj.bound_box]. *)
Definition corners (b : BoundBox) : list Vector :=
  [b0 b; b1 b; b2 b; b3 b; b4 b; b5 b; b6 b; b7 b].

(** An object of [bpy.data.objects], with the attributes that the script
    uses.  [matrix_world] is the matrix that the host computed when it last
    evaluated the scene. *)
Record Object : Type := mkObject {
  name : string;
  type : string;
  bound_box : BoundBox;
  matrix_world : Matrix;
  location : Vector
}.


Definition with_translation (m : Matrix) (t : Vector) : Matrix :=
  mkMatrix (mkRow (c0 (r0 m)) (c1 (r0 m)) (c2 (r0 m)) (x t))
           (mkRow (c0 (r1 m)) (c1 (r1 m)) (c2 (r1 m)) (y t))
           (mkRow (c0 (r2 m)) (c1 (r2 m)) (c2 (r2 m)) (z t)).

(** Line 14: the objects of the scene whose type is ['MESH']. *)
Definition mesh_objects (objects : list Object) : list Object :=
  List.filter (fun obj => String.eqb (type obj) "MESH") objects.

(** Line 27 and line 69: [obj.matrix_world @ mathutils.Vector(corner)]. *)
Definition world_corner (obj : Object) (corner : Vector) : Vector :=
  matmul (matrix_world obj) (Vector_copy corner).

(** Lines 26-27 and 68-69: the world corners of an object, in the order of
    [obj.bound_box]. *)
Definition world_corners (obj : Object) : list Vector :=
  map (world_corner obj) (corners (bound_box obj)).

Definition all_world_corners (objs : list Object) : list Vector :=
  concat (map world_corners objs).

(** ** The union bounding box, lines 21-33 *)

(** The six accumulators [min_x .. max_z]. *)
Record BoundingBox : Type := mkBox { bmin : Vector; bmax : Vector }.

(** Lines 21-22. *)
Definition initial_bounds : BoundingBox :=
  mkBox (mkVector PInf PInf PInf) (mkVector NInf NInf NInf).

(** Lines 28-33, for one world corner. *)
Definition accumulate (b : BoundingBox) (world_corner : Vector) : BoundingBox :=
  mkBox (mkVector (pymin (x (bmin b)) (x world_corner))
                  (pymin (y (bmin b)) (y world_corner))
                  (pymin (z (bmin b)) (z world_corner)))
        (mkVector (pymax (x (bmax b)) (x world_corner))
                  (pymax (y (bmax b)) (y world_corner))
                  (pymax (z (bmax b)) (z world_corner))).

(** Lines 26-33, the inner loop over the corners of one object. *)
Definition accumulate_object (b : BoundingBox) (obj : Object) : BoundingBox :=
  fold_left accumulate (world_corners obj) b.

(** Lines 21-33. *)
Definition computeUnionBounds (objs : list Object) : BoundingBox :=
  fold_left accumulate_object objs initial_bounds.

Definition box_eq (a b : BoundingBox) : Prop :=
  veq (bmin a) (bmin b) /\ veq (bmax a) (bmax b).

(** The point [c] lies within the box [b]. *)
Definition inside (b : BoundingBox) (c : Vector) : Prop :=
  fle (x (bmin b)) (x c) /\ fle (x c) (x (bmax b)) /\
  fle (y (bmin b)) (y c) /\ fle (y c) (y (bmax b)) /\
  fle (z (bmin b)) (z c) /\ fle (z c) (z (bmax b)).

(** ** The offset, lines 40-47 *)

Definition computeRecenterOffset (box : BoundingBox) : Vector :=
  let center_x := fdivq (fadd (x (bmin box)) (x (bmax box))) 2 in
  let center_y := fdivq (fadd (y (bmin box)) (y (bmax box))) 2 in
  let bottom_z := z (bmin box) in
  Vector3 (fneg center_x) (fneg center_y) (fneg bottom_z).

(** ** Moving the objects, lines 50-52 *)

(** [obj.location += offset]: the location is written, the world matrix is
    not. *)
Definition translate (offset : Vector) (obj : Object) : Object :=
  mkObject (name obj) (type obj) (bound_box obj) (matrix_world obj)
           (iadd (location obj) offset).

(** Lines 51-52.  The list holds each mesh object of the scene once, so
    the loop moves each of them once. *)
Definition applyOffset (objs : list Object) (offset : Vector) : list Object :=
  map (translate offset) objs.

(** ** Exceptions *)

Inductive exception : Type :=
| IndexError
| ZeroDivisionError
| SameFileError
| FileNotFoundError
| IsADirectoryError
| NotADirectoryError
| PermissionError.

Inductive result (A : Type) : Type :=
| Ok (a : A)
| Raise (e : exception).

Arguments Ok {A} a.
Arguments Raise {A} e.

(** ** The host: evaluation and baking *)

Definition identity_matrix : Matrix :=
  mkMatrix (mkRow (Fin 1) (Fin 0) (Fin 0) (Fin 0))
           (mkRow (Fin 0) (Fin 1) (Fin 0) (Fin 0))
           (mkRow (Fin 0) (Fin 0) (Fin 1) (Fin 0)).

(** Host operation: the evaluation of the scene, for an object without
    parent.  The world matrix keeps its rotation and scale and takes the
    location as its translation. *)
Definition evaluate (obj : Object) : Object :=
  mkObject (name obj) (type obj) (bound_box obj)
           (with_translation (matrix_world obj) (location obj))
           (location obj).

(** [bpy.context.view_layer.update()]; the host also runs it before and
    after each operator of lines 55-59. *)
Definition view_layer_update (objs : list Object) : list Object := map evaluate objs.

(** Host operation [bpy.ops.object.transform_apply], line 59, for an
    object without parent whose world matrix has no rotation or shear: the
    transform, with the location as its translation, is folded into the
    mesh and reset to the identity, and the local box of the new mesh is
    the image of the old one.  Each corner is mapped here as [@] maps it,
    which is what the host computes when no rounding occurs.  (For a
    rotated mesh the host recomputes the box from the rotated vertices, of
    which an object of this model keeps no record.) *)
Definition bake (obj : Object) : Object :=
  let m := with_translation (matrix_world obj) (location obj) in
  let b := bound_box obj in
  mkObject (name obj) (type obj)
           (mkBoundBox (matmul m (b0 b)) (matmul m (b1 b)) (matmul m (b2 b))
                       (matmul m (b3 b)) (matmul m (b4 b)) (matmul m (b5 b))
                       (matmul m (b6 b)) (matmul m (b7 b)))
           identity_matrix
           (mkVector (Fin 0) (Fin 0) (Fin 0)).

Definition transform_apply (objs : list Object) : list Object := map bake objs.

(** ** The verification loop, lines 63-76 *)

Record Verification : Type := mkVerification {
  min_z_new : pyfloat;
  center_x_new : pyfloat;
  center_y_new : pyfloat;
  count : Z
}.

(** Lines 63-66. *)
Definition initial_verification : Verification :=
  mkVerification PInf (Fin 0) (Fin 0) 0.

(** Lines 70-73, for one world corner. *)
Definition verify_corner (s : Verification) (world_corner : Vector) : Verification :=
  mkVerification (pymin (min_z_new s) (z world_corner))
                 (fadd (center_x_new s) (x world_corner))
                 (fadd (center_y_new s) (y world_corner))
                 (count s + 1)%Z.

Definition verify_object (s : Verification) (obj : Object) : Verification :=
  fold_left verify_corner (world_corners obj) s.

(** Lines 63-76: the minimum Z and the mean X and Y over all world corners.
    The divisions of lines 75-76 raise when no corner was counted. *)
Definition verifyRecenter (objs : list Object) : result (pyfloat * pyfloat * pyfloat) :=
  let s := fold_left verify_object objs initial_verification in
  if (count s =? 0)%Z then Raise ZeroDivisionError
  else Ok (min_z_new s,
           fdivq (center_x_new s) (inject_Z (count s)),
           fdivq (center_y_new s) (inject_Z (count s))).

(** ** The script from line 14 to line 76

    The result is the state of the mesh objects when the script reaches
    line 78 or raises, and the values it prints there.  The host operations
    of lines 55-59 are taken to succeed on a scene that has a mesh object
    (the host refuses some scenes, a mesh shared by several objects for
    one); the calls that only select objects and the prints are left
    out. *)
Definition recenter_scene (objects : list Object)
  : list Object * result (pyfloat * pyfloat * pyfloat) :=
  let objs := mesh_objects objects in
  let box := computeUnionBounds objs in
  let offset := computeRecenterOffset box in
  let objs := applyOffset objs offset in
  match objs with
  | [] => (objs, Raise IndexError)           (* line 58: mesh_objects[0] *)
  | _ :: _ =>
      let objs := transform_apply objs in
      (objs, verifyRecenter objs)
  end.

(** ** Copying the textures, lines 110-125 *)

Definition texture_src : string :=
  "/Users/nolangriffis/Downloads/uploads_files_2263490_Oak+forest (1)/texture".

Definition export_dir : string :=
  "/Users/nolangriffis/Documents/producer-tour-unity/Creator World Alpha/Assets/Art/Models/Environment/Trees".

Definition texture_files : list string :=
  [ "TexturesCom_Branches0012_1_masked_S.png";
    "TexturesCom_PineBark2_1K_albedo.tif";
    "TexturesCom_PineBark2_1K_normal.tif";
    "TexturesCom_PineBark2_1K_ao.tif";
    "TexturesCom_PineBark2_1K_roughness.tif";
    "TexturesCom_PineBark2_1K_height.tif" ]%string.

Definition startswith_sep (s : string) : bool :=
  match s with
  | String c _ => Ascii.eqb c "/"%char
  | EmptyString => false
  end.

Fixpoint endswith_sep (s : string) : bool :=
  match s with
  | EmptyString => false
  | String c EmptyString => Ascii.eqb c "/"%char
  | String _ rest => endswith_sep rest
  end.

(** [os.path.join(a, b)] of [posixpath]. *)
Definition os_path_join (a b : string) : string :=
  if startswith_sep b then b
  else if String.eqb a EmptyString || endswith_sep a then a +:+ b
  else a +:+ "/" +:+ b.

(** [has_sep s]: the string holds a [/]. *)
Fixpoint has_sep (s : string) : bool :=
  match s with
  | EmptyString => false
  | String c rest => Ascii.eqb c "/"%char || has_sep rest
  end.

(** [p[:i]] and [p[i:]] for [i = p.rfind('/') + 1]. *)
Fixpoint rsplit_sep (p : string) : string * string :=
  match p with
  | EmptyString => (EmptyString, EmptyString)
  | String c rest =>
      if has_sep rest then let (head, tail) := rsplit_sep rest in (String c head, tail)
      else if Ascii.eqb c "/"%char then (String c EmptyString, rest)
      else (EmptyString, String c rest)
  end.

(** [s.rstrip('/')]. *)
Fixpoint rstrip_sep (s : string) : string :=
  match s with
  | EmptyString => EmptyString
  | String c rest =>
      match rstrip_sep rest with
      | EmptyString => if Ascii.eqb c "/"%char then EmptyString else String c EmptyString
      | r => String c r
      end
  end.

(** [os.path.basename(p)] and [os.path.dirname(p)] of [posixpath]: the
    head keeps its slashes when it holds nothing else. *)
Definition basename (p : string) : string := snd (rsplit_sep p).

Definition dirname (p : string) : string :=
  let head := fst (rsplit_sep p) in
  match rstrip_sep head with
  | EmptyString => head
  | r => r
  end.

(** A regular file: its contents, and whether its owner may read it and
    write it.  The files belong to the user who runs the script, who is not
    the superuser. *)
Record File : Type := mkFile {
  content : string;
  readable : bool;
  writable : bool
}.

(** What a path names. *)
Inductive entry : Type :=
| Regular (f : File)
| Directory.

(** The disk, by path, and the lines printed.  Two paths name two files:
    the disk has no links, its names are case-sensitive, and [.] and [..]
    are not resolved (the properties of the loop are about plain names).
    It has no special files, and its directories can be searched and
    written. *)
Record Host : Type := mkHost {
  disk : gmap string entry;
  stdout : list string
}.

(** [os.path.isdir(p)]. *)
Definition isdir (d : gmap string entry) (p : string) : bool :=
  match d !! p with
  | Some Directory => true
  | _ => false
  end.

(** [shutil.copy2(src, dst)]: a destination that is a directory stands for
    the file of the name of the source in it; a file is not copied onto
    itself; the source is opened for reading and the destination for
    writing, in a directory that exists; the contents and the permission
    bits of the source are copied. *)
Definition copy2 (src dst : string) (d : gmap string entry)
  : result (gmap string entry) :=
  let dst := if isdir d dst then os_path_join dst (basename src) else dst in
  if String.eqb src dst then Raise SameFileError
  else
    match d !! src with
    | None => Raise FileNotFoundError
    | Some Directory => Raise IsADirectoryError
    | Some (Regular f) =>
        if negb (readable f) then Raise PermissionError
        else
          match d !! dst with
          | Some Directory => Raise IsADirectoryError
          | Some (Regular g) =>
              if writable g then Ok (<[dst := Regular f]> d)
              else Raise PermissionError
          | None =>
              match d !! dirname dst with
              | Some Directory => Ok (<[dst := Regular f]> d)
              | Some (Regular _) => Raise NotADirectoryError
              | None => Raise FileNotFoundError
              end
          end
    end.

(** Lines 121-125, for one texture. *)
Definition copy_texture (h : Host) (tex_file : string) : result Host :=
  let src := os_path_join texture_src tex_file in
  let dst := os_path_join export_dir tex_file in
  match disk h !! src with
  | Some _ =>                                  (* os.path.exists(src) *)
      match copy2 src dst (disk h) with
      | Ok d => Ok (mkHost d (stdout h ++ ["Copied: " +:+ tex_file]))
      | Raise e => Raise e
      end
  | None => Ok h
  end.

(** Lines 120-125. *)
Fixpoint copy_textures (files : list string) (h : Host) : result Host :=
  match files with
  | [] => Ok h
  | tex_file :: rest =>
      match copy_texture h tex_file with
      | Ok h' => copy_textures rest h'
      | Raise e => Raise e
      end
  end.

(** [os.path.exists] of the source path of a texture. *)
Definition exists_src (d : gmap string entry) (tex_file : string) : bool :=
  match d !! os_path_join texture_src tex_file with
  | Some _ => true
  | None => false
  end.

(** What the loop needs of the disk for one texture: a source that exists
    is a regular file that may be read, and its destination is free or is
    a regular file that may be written. *)
Definition copyable (d : gmap string entry) (tex_file : string) : bool :=
  match d !! os_path_join texture_src tex_file with
  | None => true
  | Some Directory => false
  | Some (Regular f) =>
      readable f &&
      match d !! os_path_join export_dir tex_file with
      | None => true
      | Some (Regular g) => writable g
      | Some Directory => false
      end
  end.

(** A name that is not an absolute path. *)
Definition relative (tex_file : string) : Prop := startswith_sep tex_file = false.

(** A plain file name: not empty, not [.] or [..], and without [/]. *)
Definition plain (tex_file : string) : Prop :=
  has_sep tex_file = false /\
  tex_file <> EmptyString /\ tex_file <> "."%string /\ tex_file <> ".."%string.



(** ** Sample scenes *)

(** The corners of an axis-aligned box in the order of [bound_box]. *)
Definition box_corners (lo hi : Vector) : BoundBox :=
  mkBoundBox (mkVector (x lo) (y lo) (z lo)) (mkVector (x lo) (y lo) (z hi))
             (mkVector (x lo) (y hi) (z hi)) (mkVector (x lo) (y hi) (z lo))
             (mkVector (x hi) (y lo) (z lo)) (mkVector (x hi) (y lo) (z hi))
             (mkVector (x hi) (y hi) (z hi)) (mkVector (x hi) (y hi) (z lo)).

Definition vec (a b c : Q) : Vector := mkVector (Fin a) (Fin b) (Fin c).

Definition unit_cube : BoundBox :=
  box_corners (vec (-0.5) (-0.5) (-0.5)) (vec 0.5 0.5 0.5).

(** A mesh without parent, as evaluated: the scale along the axes and the
    location make its world matrix. *)
Definition placed (nm ty : string) (b : BoundBox) (sx sy sz : Q) (loc : Vector) : Object :=
  mkObject nm ty b
           (with_translation
              (mkMatrix (mkRow (Fin sx) (Fin 0) (Fin 0) (Fin 0))
                        (mkRow (Fin 0) (Fin sy) (Fin 0) (Fin 0))
                        (mkRow (Fin 0) (Fin 0) (Fin sz) (Fin 0)))
              loc)
           loc.

(** The unit cube placed at (10, 5, 2). *)
Definition cube_at_10_5_2 : Object :=
  placed "Cube" "MESH" unit_cube 1 1 1 (vec 10 5 2).

(** A unit cube at the origin, and one stretched three times along X and
    placed at (1, 0, 0): their world boxes span [-0.5, 0.5] and
    [-0.5, 2.5] in X. *)
Definition trunk : Object :=
  placed "Trunk" "MESH" unit_cube 1 1 1 (vec 0 0 0).

Definition crown : Object :=
  placed "Crown" "MESH" unit_cube 3 1 1 (vec 1 0 0).

(** A file that may be read and written, and one that may only be read. *)
Definition file (s : string) : entry := Regular (mkFile s true true).
Definition read_only (s : string) : entry := Regular (mkFile s true false).


(** An object that is not a mesh. *)
Definition camera : Object :=
  placed "Camera" "CAMERA" unit_cube 1 1 1 (vec 7 (-7) 5).

(** A mesh whose location is [nan]. *)
Definition lost : Object :=
  placed "Lost" "MESH" unit_cube 1 1 1 (mkVector NaN NaN NaN).

(** A unit cube placed at X = 2^24, where the binary32 numbers are the
    even integers. *)
Definition far_cube : Object :=
  placed "Far" "MESH" unit_cube 1 1 1 (vec 16777216 0 0).


(** A disk with one file, at an absolute path. *)
Definition bark_disk : gmap string entry :=
  {[ "/tmp/bark.tif"%string := file "bark" ]}.

(** A disk whose source directory holds a texture in a directory [sub]. *)
Definition sub_disk : gmap string entry :=
  list_to_map
    [ (export_dir, Directory);
      (os_path_join texture_src "sub", Directory);
      (os_path_join texture_src "sub/bark.tif", file "bark") ]%string.

(** A disk with one texture, which may only be read. *)
Definition leaf_disk : gmap string entry :=
  list_to_map
    [ (export_dir, Directory);
      (os_path_join texture_src "leaf.png", read_only "leaf") ]%string.

(** ** The tolerances of the verification *)




(** ** Notions used to state the properties *)

(** The image of a corner under the affine map of a matrix, in exact
    arithmetic. *)
Definition affine_row (r : Row) (c : Vector) : pyfloat :=
  fadd (fadd (fadd (fmul (c0 r) (x c)) (fmul (c1 r) (y c))) (fmul (c2 r) (z c))) (c3 r).

Definition affine_image (m : Matrix) (c : Vector) : Vector :=
  mkVector (affine_row (r0 m) c) (affine_row (r1 m) c) (affine_row (r2 m) c).

(** The coordinates of the corner and the translation of the row are
    binary32 numbers, and so are the three products and the sums that [@]
    accumulates: [Matrix @ Vector] computes the affine map without
    rounding. *)
Definition exact_row (r : Row) (c : Vector) : Prop :=
  exists a b cc t X Y Z,
    r = mkRow (Fin a) (Fin b) (Fin cc) (Fin t) /\
    c = mkVector (Fin X) (Fin Y) (Fin Z) /\
    binary32 X /\ binary32 Y /\ binary32 Z /\ binary32 t /\
    binary32 (a * X) /\ binary32 (b * Y) /\ binary32 (cc * Z) /\
    binary32 (a * X + b * Y) /\
    binary32 (a * X + b * Y + cc * Z) /\
    binary32 (a * X + b * Y + cc * Z + t).

Definition exact_transform (m : Matrix) (c : Vector) : Prop :=
  exact_row (r0 m) c /\ exact_row (r1 m) c /\ exact_row (r2 m) c.

(** The smallest box that holds two boxes. *)
Definition box_join (a b : BoundingBox) : BoundingBox :=
  mkBox (mkVector (pymin (x (bmin a)) (x (bmin b)))
                  (pymin (y (bmin a)) (y (bmin b)))
                  (pymin (z (bmin a)) (z (bmin b))))
        (mkVector (pymax (x (bmax a)) (x (bmax b)))
                  (pymax (y (bmax a)) (y (bmax b)))
                  (pymax (z (bmax a)) (z (bmax b)))).

(** The minimum corner is below the maximum corner. *)
Definition box_ordered (b : BoundingBox) : Prop :=
  fle (x (bmin b)) (x (bmax b)) /\
  fle (y (bmin b)) (y (bmax b)) /\
  fle (z (bmin b)) (z (bmax b)).

(** The rational a finite float denotes. *)
Definition qval (a : pyfloat) : Q :=
  match a with
  | Fin q => q
  | _ => 0
  end.

(** The mean of the component [f] over a list of corners, as lines 71-76
    compute it. *)
Definition mean (f : Vector -> pyfloat) (l : list Vector) : pyfloat :=
  fdivq (fold_left fadd (map f l) (Fin 0)) (inject_Z (Z.of_nat (length l))).

(** ** What [+=] stores *)


(** What two [+=] store in one component: the sum of the binary32 sum and
    the offset, again in binary32, which is the old value plus twice the
    offset when both sums are binary32 numbers. *)
Definition stores_sum_twice (old offset new : pyfloat) : Prop :=
  new = f32 (fadd (f32 (fadd old offset)) offset) /\
  forall p q, old = Fin p -> offset = Fin q ->
    binary32 (p + q) -> binary32 (p + q + q) -> feq new (Fin (p + 2 * q)).

(** * Properties *)

(** ** Arithmetic and order of [pyfloat] *)

Lemma Qltb_spec (a b : Q) : reflect (a < b) (Qltb a b).
Proof.
  unfold Qltb. destruct (Qle_bool b a) eqn:E; simpl; constructor.
  - apply Qle_bool_iff in E. lra.
  - destruct (Qlt_le_dec a b) as [Hlt | Hle]; [ exact Hlt | ].
    apply Qle_bool_iff in Hle. congruence.
Qed.

Ltac float_cases :=
  repeat match goal with
         | a : pyfloat |- _ => destruct a
         end;
  simpl in *;
  repeat match goal with
         | |- context [Qltb ?a ?b] => destruct (Qltb_spec a b); simpl in *
         | H : context [Qltb ?a ?b] |- _ => destruct (Qltb_spec a b); simpl in *
         end;
  try tauto; try discriminate; try lra.

Lemma feq_refl a : feq a a.
Proof. float_cases. Qed.

Lemma feq_sym a b : feq a b -> feq b a.
Proof. float_cases. Qed.

Lemma feq_trans a b c : feq a b -> feq b c -> feq a c.
Proof. float_cases. Qed.

#[global] Instance feq_equivalence : Equivalence feq.
Proof.
  split; [ exact feq_refl | exact feq_sym | exact feq_trans ].
Qed.

Lemma flt_proper a a' b b' : feq a a' -> feq b b' -> flt a b = flt a' b'.
Proof. float_cases. Qed.

Lemma pymin_proper a a' b b' :
  feq a a' -> feq b b' -> feq (pymin a b) (pymin a' b').
Proof.
  intros Ha Hb. unfold pymin. rewrite (flt_proper b b' a a' Hb Ha).
  destruct (flt b' a'); assumption.
Qed.

Lemma pymax_proper a a' b b' :
  feq a a' -> feq b b' -> feq (pymax a b) (pymax a' b').
Proof.
  intros Ha Hb. unfold pymax. rewrite (flt_proper a a' b b' Ha Hb).
  destruct (flt a' b'); assumption.
Qed.

Lemma fadd_proper a a' b b' :
  feq a a' -> feq b b' -> feq (fadd a b) (fadd a' b').
Proof. float_cases. Qed.

(** The accumulator of a minimum never becomes [nan], and a [nan]
    candidate is never taken. *)
Lemma pymin_nan_r a : pymin a NaN = a.
Proof. destruct a; reflexivity. Qed.

Lemma pymax_nan_r a : pymax a NaN = a.
Proof. destruct a; reflexivity. Qed.

Lemma pymin_cases a b : pymin a b = a \/ pymin a b = b.
Proof. unfold pymin. destruct (flt b a); auto. Qed.

Lemma pymax_cases a b : pymax a b = a \/ pymax a b = b.
Proof. unfold pymax. destruct (flt a b); auto. Qed.

Lemma pymin_not_nan a b : is_nan a = false -> is_nan (pymin a b) = false.
Proof. unfold pymin. float_cases. Qed.

Lemma pymax_not_nan a b : is_nan a = false -> is_nan (pymax a b) = false.
Proof. unfold pymax. float_cases. Qed.

Lemma fle_refl a : is_nan a = false -> fle a a.
Proof. float_cases. Qed.

Lemma fle_trans a b c : fle a b -> fle b c -> fle a c.
Proof. float_cases. Qed.

Lemma pymin_le_l a b : is_nan a = false -> fle (pymin a b) a.
Proof. unfold pymin. float_cases. Qed.

Lemma pymin_le_r a b :
  is_nan a = false -> is_nan b = false -> fle (pymin a b) b.
Proof. unfold pymin. float_cases. Qed.

Lemma pymax_ge_l a b : is_nan a = false -> fle a (pymax a b).
Proof. unfold pymax. float_cases. Qed.

Lemma pymax_ge_r a b :
  is_nan a = false -> is_nan b = false -> fle b (pymax a b).
Proof. unfold pymax. float_cases. Qed.

(** Two candidates may be presented in either order. *)
Lemma pymin_swap a p q : feq (pymin (pymin a p) q) (pymin (pymin a q) p).
Proof. unfold pymin. float_cases. Qed.

Lemma pymax_swap a p q : feq (pymax (pymax a p) q) (pymax (pymax a q) p).
Proof. unfold pymax. float_cases. Qed.

(** ** Rounding to binary32 *)

Lemma pow2_pos k : 0 < pow2 k.
Proof. apply Qpower_0_lt. reflexivity. Qed.

Lemma pow2_plus a b : pow2 (a + b) == pow2 a * pow2 b.
Proof. apply Qpower_plus. discriminate. Qed.

Lemma pow2_le a b : (a <= b)%Z -> pow2 a <= pow2 b.
Proof. intros H. apply Qpower_le_compat_l; [ exact H | discriminate ]. Qed.


Lemma pow2_lt_inv a b : pow2 a < pow2 b -> (a < b)%Z.
Proof. intros H. apply (Qpower_lt_compat_l_inv 2); [ exact H | reflexivity ]. Qed.

Lemma pow2_nonneg_Z k : (0 <= k)%Z -> pow2 k == inject_Z (2 ^ k).
Proof. intros H. unfold pow2. rewrite Zpower_Qpower by exact H. reflexivity. Qed.

Lemma pow2_S k : pow2 (k + 1) == 2 * pow2 k.
Proof. rewrite pow2_plus. change (pow2 1) with 2. ring. Qed.

Lemma ilog2_spec q :
  ~ q == 0 -> pow2 (ilog2 q) <= Qabs q /\ Qabs q < pow2 (ilog2 q + 1).
Proof.
  intros Hq. unfold ilog2.
  set (n := Z.abs (Qnum q)). set (d := Zpos (Qden q)).
  assert (Hn : (0 < n)%Z).
  { unfold n. destruct q as [[ | p | p] dq]; cbn; try lia.
    exfalso. apply Hq. reflexivity. }
  assert (Hd : (0 < d)%Z) by (unfold d; lia).
  destruct (Z.log2_spec n Hn) as [Na Nb]. destruct (Z.log2_spec d Hd) as [Da Db].
  set (a := Z.log2 n) in *. set (b := Z.log2 d) in *.
  assert (Ha : (0 <= a)%Z) by apply Z.log2_nonneg.
  assert (Hb : (0 <= b)%Z) by apply Z.log2_nonneg.
  assert (EX : Qabs q * inject_Z d == inject_Z n).
  { unfold n, d. destruct q as [nq dq]. unfold Qabs, Qeq, Qmult, inject_Z. cbn. lia. }
  assert (QNa : pow2 a <= inject_Z n).
  { rewrite pow2_nonneg_Z by exact Ha. rewrite <- Zle_Qle. exact Na. }
  assert (QNb : inject_Z n < 2 * pow2 a).
  { rewrite <- pow2_S. rewrite pow2_nonneg_Z by lia. rewrite <- Zlt_Qlt.
    replace (a + 1)%Z with (Z.succ a) by lia. exact Nb. }
  assert (QDa : pow2 b <= inject_Z d).
  { rewrite pow2_nonneg_Z by exact Hb. rewrite <- Zle_Qle. exact Da. }
  assert (QDb : inject_Z d < 2 * pow2 b).
  { rewrite <- pow2_S. rewrite pow2_nonneg_Z by lia. rewrite <- Zlt_Qlt.
    replace (b + 1)%Z with (Z.succ b) by lia. exact Db. }
  assert (EC : pow2 (a - b) * pow2 b == pow2 a).
  { rewrite <- pow2_plus. replace (a - b + b)%Z with a by lia. reflexivity. }
  pose proof (pow2_pos (a - b)) as Pc. pose proof (pow2_pos b) as Pb.
  pose proof (Qabs_nonneg q) as Hx.
  assert (ES : pow2 (a - b) == 2 * pow2 (a - b - 1)).
  { rewrite <- pow2_S. replace (a - b - 1 + 1)%Z with (a - b)%Z by lia. reflexivity. }
  pose proof (pow2_pos (a - b - 1)) as Pc1.
  destruct (Qle_bool (pow2 (a - b)) (Qabs q)) eqn:E.
  - apply Qle_bool_iff in E. split; [ exact E | ].
    rewrite pow2_S. nra.
  - assert (E' : Qabs q < pow2 (a - b)).
    { destruct (Qlt_le_dec (Qabs q) (pow2 (a - b))) as [H | H]; [ exact H | ].
      apply Qle_bool_iff in H. congruence. }
    replace (a - b - 1 + 1)%Z with (a - b)%Z by lia. split; [ | exact E' ].
    nra.
Qed.

Lemma round_half_even_error s :
  Qabs (inject_Z (round_half_even s) - s) <= 1 # 2.
Proof.
  unfold round_half_even.
  pose proof (Qfloor_le s) as L. pose proof (Qlt_floor s) as U.
  rewrite inject_Z_plus in U. change (inject_Z 1) with 1 in U.
  set (f := Qfloor s) in *.
  destruct (Qcompare_spec (s - inject_Z f) (1 # 2)) as [E | E | E].
  - destruct (Z.even f); [ | rewrite inject_Z_plus; change (inject_Z 1) with 1 ];
      apply Qabs_Qle_condition; split; lra.
  - apply Qabs_Qle_condition; split; lra.
  - rewrite inject_Z_plus. change (inject_Z 1) with 1.
    apply Qabs_Qle_condition; split; lra.
Qed.

Lemma round_half_even_Z s n : s == inject_Z n -> round_half_even s = n.
Proof.
  intros E. unfold round_half_even.
  assert (Ef : Qfloor s = n).
  { rewrite (Qfloor_comp s (inject_Z n) E). apply Qfloor_Z. }
  rewrite Ef.
  destruct (Qcompare_spec (s - inject_Z n) (1 # 2)) as [H | H | H];
    [ lra | reflexivity | lra ].
Qed.



Lemma Qabs_inject_Z m : Qabs (inject_Z m) == inject_Z (Z.abs m).
Proof. unfold Qabs, inject_Z. cbn. reflexivity. Qed.

Lemma round32_exact q :
  binary32 q -> exists r, round32 q = Fin r /\ r == q.
Proof.
  intros (m & j & Eq & Hm & Hj & Hmax). unfold round32.
  destruct (Qeq_bool q 0) eqn:E0.
  - apply Qeq_bool_iff in E0. exists 0. split; [ reflexivity | ]. symmetry. exact E0.
  - assert (Hq : ~ q == 0).
    { intros H. apply Qeq_bool_iff in H. congruence. }
    fold (ulp_exp q). set (k := ulp_exp q).
    pose proof (pow2_pos k) as Pk. pose proof (pow2_pos j) as Pj.
    assert (Hkj : (k <= j)%Z).
    { destruct (ilog2_spec q Hq) as [L _].
      assert (Habs : Qabs q < pow2 (j + 24)).
      { rewrite Eq, Qabs_Qmult, (Qabs_pos (pow2 j)), Qabs_inject_Z by lra.
        rewrite (Z.add_comm j 24), pow2_plus.
        apply Qmult_lt_compat_r; [ exact Pj | ].
        rewrite (pow2_nonneg_Z 24) by lia. rewrite <- Zlt_Qlt. exact Hm. }
      assert (ilog2 q < j + 24)%Z.
      { apply pow2_lt_inv. eapply Qle_lt_trans; [ exact L | exact Habs ]. }
      unfold k, ulp_exp. lia. }
    assert (Es : q / pow2 k == inject_Z (m * 2 ^ (j - k))).
    { rewrite inject_Z_mult, <- (pow2_nonneg_Z (j - k)) by lia.
      rewrite Eq. replace j with (j - k + k)%Z at 1 by lia.
      rewrite pow2_plus. field. lra. }
    rewrite (round_half_even_Z _ _ Es).
    assert (Er : inject_Z (m * 2 ^ (j - k)) * pow2 k == q).
    { rewrite <- Es. field. lra. }
    assert (Hover : Qle_bool (pow2 128) (Qabs (inject_Z (m * 2 ^ (j - k)) * pow2 k)) = false).
    { destruct (Qle_bool _ _) eqn:E; [ | reflexivity ].
      apply Qle_bool_iff in E. rewrite Er in E. lra. }
    rewrite Hover. eexists. split; [ reflexivity | ].
    rewrite Qred_correct. exact Er.
Qed.

Lemma Zabs_round_le s (b : Z) :
  Qabs s < inject_Z b -> (Z.abs (round_half_even s) <= b)%Z.
Proof.
  intros H. pose proof (round_half_even_error s) as E.
  set (n := round_half_even s) in *.
  assert (Hn : Qabs (inject_Z n) < inject_Z b + 1).
  { assert (En : inject_Z n == s + (inject_Z n - s)) by ring.
    rewrite En. eapply Qle_lt_trans; [ apply Qabs_triangle | ]. lra. }
  rewrite Qabs_inject_Z in Hn.
  assert (Hn' : inject_Z (Z.abs n) < inject_Z (b + 1)).
  { rewrite inject_Z_plus. exact Hn. }
  rewrite <- Zlt_Qlt in Hn'. lia.
Qed.

Lemma round32_binary32 q r : round32 q = Fin r -> binary32 r.
Proof.
  unfold round32. destruct (Qeq_bool q 0) eqn:E0.
  - intros H. injection H as <-. exists 0%Z, 0%Z. repeat split; try lia; reflexivity.
  - assert (Hq : ~ q == 0).
    { intros H. apply Qeq_bool_iff in H. congruence. }
    fold (ulp_exp q). set (k := ulp_exp q).
    set (n := round_half_even (q / pow2 k)).
    destruct (Qle_bool (pow2 128) (Qabs (inject_Z n * pow2 k))) eqn:Hover.
    { destruct (Qle_bool 0 q); discriminate. }
    intros H. injection H as <-.
    assert (Hmax : Qabs (Qred (inject_Z n * pow2 k)) < pow2 128).
    { rewrite Qred_correct.
      destruct (Qlt_le_dec (Qabs (inject_Z n * pow2 k)) (pow2 128)) as [Hlt | Hle];
        [ exact Hlt | ].
      apply Qle_bool_iff in Hle. congruence. }
    pose proof (pow2_pos k) as Pk.
    assert (Hk : (-149 <= k)%Z) by (unfold k, ulp_exp; lia).
    assert (Hn : (Z.abs n <= 2 ^ 24)%Z).
    { apply Zabs_round_le. destruct (ilog2_spec q Hq) as [_ U].
      rewrite <- (pow2_nonneg_Z 24) by lia.
      assert (E : Qabs (q / pow2 k) == Qabs q / pow2 k).
      { unfold Qdiv. rewrite Qabs_Qmult, Qabs_Qinv, (Qabs_pos (pow2 k)) by lra. reflexivity. }
      rewrite E. apply Qlt_shift_div_r; [ exact Pk | ].
      rewrite <- pow2_plus. eapply Qlt_le_trans; [ exact U | ].
      apply pow2_le. unfold k, ulp_exp. lia. }
    destruct (Z.eq_dec (Z.abs n) (2 ^ 24)%Z) as [Etop | Hlt].
    + exists (Z.sgn n), (k + 24)%Z. split; [ | split; [ | split ] ].
      * apply (Qeq_trans _ (inject_Z n * pow2 k));
          [ exact (Qred_correct (inject_Z n * pow2 k)) | ].
        rewrite (Z.add_comm k 24), pow2_plus.
        rewrite (pow2_nonneg_Z 24) by lia. rewrite <- Etop.
        assert (En : inject_Z n == inject_Z (Z.sgn n) * inject_Z (Z.abs n)).
        { rewrite <- inject_Z_mult. destruct n; reflexivity. }
        rewrite En. ring.
      * assert (Z.abs (Z.sgn n) <= 1)%Z by lia. lia.
      * lia.
      * exact Hmax.
    + exists n, k. split; [ exact (Qred_correct (inject_Z n * pow2 k)) | ].
      split; [ lia | ]. split; [ exact Hk | exact Hmax ].
Qed.

(** ** Values stored as C floats *)

Lemma binary32_proper p q : p == q -> binary32 p -> binary32 q.
Proof.
  intros E (m & j & Ep & Hm & Hj & Hmax). exists m, j.
  rewrite <- E. repeat split; assumption.
Qed.

Lemma binary32_opp q : binary32 q -> binary32 (- q).
Proof.
  intros (m & j & Eq & Hm & Hj & Hmax). exists (- m)%Z, j.
  split; [ rewrite inject_Z_opp, Eq; ring | ].
  split; [ lia | ]. split; [ exact Hj | ]. rewrite Qabs_opp. exact Hmax.
Qed.

Lemma f32_proper a b : feq a b -> f32 a = f32 b.
Proof.
  destruct a, b; simpl; try tauto. intros E.
  rewrite (Qred_complete _ _ E). reflexivity.
Qed.

Lemma f32_not_nan a : not_nan a -> not_nan (f32 a).
Proof.
  destruct a; simpl; try discriminate; try reflexivity. intros _.
  unfold round32. destruct (Qeq_bool _ _); [ reflexivity | ].
  destruct (Qle_bool _ _); [ destruct (Qle_bool _ _) | ]; reflexivity.
Qed.

(** A stored value is a binary32 number. *)
Lemma f32_binary32 a r : f32 a = Fin r -> binary32 r.
Proof.
  destruct a; simpl; try discriminate. apply round32_binary32.
Qed.

(** A binary32 number is stored as it is. *)
Lemma f32_exact a q : feq a (Fin q) -> binary32 q -> feq (f32 a) (Fin q).
Proof.
  intros E Hq. rewrite (f32_proper _ _ E). simpl.
  assert (Hr : binary32 (Qred q)).
  { apply (binary32_proper q); [ symmetry; apply Qred_correct | exact Hq ]. }
  destruct (round32_exact _ Hr) as (r & -> & Er). simpl.
  rewrite Er. apply Qred_correct.
Qed.


Lemma fadd_Fin a b p q :
  feq a (Fin p) -> feq b (Fin q) -> feq (fadd a b) (Fin (p + q)).
Proof. intros Ha Hb. apply (fadd_proper a (Fin p) b (Fin q) Ha Hb). Qed.

Lemma fmul_Fin a b p q :
  feq a (Fin p) -> feq b (Fin q) -> feq (fmul a b) (Fin (p * q)).
Proof.
  destruct a, b; simpl; try tauto. intros Ha Hb. rewrite Ha, Hb. reflexivity.
Qed.

(** Without rounding, [Matrix @ Vector] is the affine map. *)
Lemma dot_exact r c : exact_row r c -> feq (dot r (Vector_copy c)) (affine_row r c).
Proof.
  intros (a & b & cc & t & X & Y & Z & -> & -> & HX & HY & HZ & Ht & Ha & Hb & Hc
          & _ & _ & Hs).
  unfold dot, Vector_copy, Vector3, affine_row. cbn [c0 c1 c2 c3 x y z].
  assert (Ex : feq (f32 (fmul (Fin a) (f32 (Fin X)))) (Fin (a * X))).
  { apply f32_exact; [ | exact Ha ].
    apply fmul_Fin; [ reflexivity | apply f32_exact; [ reflexivity | exact HX ] ]. }
  assert (Ey : feq (f32 (fmul (Fin b) (f32 (Fin Y)))) (Fin (b * Y))).
  { apply f32_exact; [ | exact Hb ].
    apply fmul_Fin; [ reflexivity | apply f32_exact; [ reflexivity | exact HY ] ]. }
  assert (Ez : feq (f32 (fmul (Fin cc) (f32 (Fin Z)))) (Fin (cc * Z))).
  { apply f32_exact; [ | exact Hc ].
    apply fmul_Fin; [ reflexivity | apply f32_exact; [ reflexivity | exact HZ ] ]. }
  assert (Et : feq (f32 (fmul (Fin t) (Fin 1))) (Fin t)).
  { apply f32_exact; [ simpl; ring | exact Ht ]. }
  apply (feq_trans _ (Fin (a * X + b * Y + cc * Z + t))); [ | simpl; reflexivity ].
  apply f32_exact; [ | exact Hs ].
  apply (feq_trans _ (Fin (0 + a * X + b * Y + cc * Z + t))); [ | simpl; ring ].
  apply fadd_Fin; [ | exact Et ].
  apply fadd_Fin; [ | exact Ez ].
  apply fadd_Fin; [ | exact Ey ].
  apply fadd_Fin; [ reflexivity | exact Ex ].
Qed.

Lemma matmul_exact m c :
  exact_transform m c -> veq (matmul m (Vector_copy c)) (affine_image m c).
Proof.
  intros (H0 & H1 & H2). repeat split; apply dot_exact; assumption.
Qed.

(** ** Running minima and maxima *)

Lemma fold_pymin_not_nan l a : not_nan a -> not_nan (fold_left pymin l a).
Proof.
  revert a. induction l as [ | v l IH]; intros a Ha; simpl; [ exact Ha | ].
  apply IH. apply pymin_not_nan. exact Ha.
Qed.

Lemma fold_pymax_not_nan l a : not_nan a -> not_nan (fold_left pymax l a).
Proof.
  revert a. induction l as [ | v l IH]; intros a Ha; simpl; [ exact Ha | ].
  apply IH. apply pymax_not_nan. exact Ha.
Qed.

Lemma fold_pymin_le_start l a : not_nan a -> fle (fold_left pymin l a) a.
Proof.
  revert a. induction l as [ | v l IH]; intros a Ha; simpl.
  - apply fle_refl. exact Ha.
  - eapply fle_trans.
    + apply IH. apply pymin_not_nan. exact Ha.
    + apply pymin_le_l. exact Ha.
Qed.

Lemma fold_pymax_ge_start l a : not_nan a -> fle a (fold_left pymax l a).
Proof.
  revert a. induction l as [ | v l IH]; intros a Ha; simpl.
  - apply fle_refl. exact Ha.
  - eapply fle_trans.
    + apply pymax_ge_l. exact Ha.
    + apply IH. apply pymax_not_nan. exact Ha.
Qed.

Lemma fold_pymin_lower l a v :
  not_nan a -> Forall not_nan l -> In v l -> fle (fold_left pymin l a) v.
Proof.
  revert a. induction l as [ | w l IH]; intros a Ha Hl Hin; [ destruct Hin | ].
  inversion Hl as [ | ? ? Hw Hl']; subst. simpl. destruct Hin as [-> | Hin].
  - eapply fle_trans.
    + apply fold_pymin_le_start. apply pymin_not_nan. exact Ha.
    + apply pymin_le_r; assumption.
  - apply IH; [ apply pymin_not_nan; exact Ha | exact Hl' | exact Hin ].
Qed.

Lemma fold_pymax_upper l a v :
  not_nan a -> Forall not_nan l -> In v l -> fle v (fold_left pymax l a).
Proof.
  revert a. induction l as [ | w l IH]; intros a Ha Hl Hin; [ destruct Hin | ].
  inversion Hl as [ | ? ? Hw Hl']; subst. simpl. destruct Hin as [-> | Hin].
  - eapply fle_trans.
    + apply pymax_ge_r; [ exact Ha | exact Hw ].
    + apply fold_pymax_ge_start. apply pymax_not_nan. exact Ha.
  - apply IH; [ apply pymax_not_nan; exact Ha | exact Hl' | exact Hin ].
Qed.

(** The result of a running minimum is its start or one of the candidates. *)
Lemma fold_pymin_choice l a :
  fold_left pymin l a = a \/ In (fold_left pymin l a) l.
Proof.
  revert a. induction l as [ | w l IH]; intros a; simpl; [ left; reflexivity | ].
  destruct (IH (pymin a w)) as [E | Hin]; [ | right; right; exact Hin ].
  rewrite E. destruct (pymin_cases a w) as [-> | ->]; auto.
Qed.

Lemma fold_pymax_choice l a :
  fold_left pymax l a = a \/ In (fold_left pymax l a) l.
Proof.
  revert a. induction l as [ | w l IH]; intros a; simpl; [ left; reflexivity | ].
  destruct (IH (pymax a w)) as [E | Hin]; [ | right; right; exact Hin ].
  rewrite E. destruct (pymax_cases a w) as [-> | ->]; auto.
Qed.

Lemma fle_PInf_l v : fle PInf v -> v = PInf.
Proof. destruct v; simpl; tauto. Qed.

Lemma fle_NInf_r v : fle v NInf -> v = NInf.
Proof. destruct v; simpl; tauto. Qed.

(** Started at [inf], the minimum of a non-empty list without [nan] is one
    of its elements. *)
Lemma fold_pymin_attained l :
  l <> [] -> Forall not_nan l -> In (fold_left pymin l PInf) l.
Proof.
  intros Hne Hl. destruct (fold_pymin_choice l PInf) as [E | Hin]; [ | exact Hin ].
  destruct l as [ | w l]; [ congruence | ].
  assert (Hw : fle (fold_left pymin (w :: l) PInf) w).
  { apply fold_pymin_lower; [ reflexivity | exact Hl | left; reflexivity ]. }
  rewrite E in Hw. apply fle_PInf_l in Hw. rewrite E, <- Hw. left; reflexivity.
Qed.

Lemma fold_pymax_attained l :
  l <> [] -> Forall not_nan l -> In (fold_left pymax l NInf) l.
Proof.
  intros Hne Hl. destruct (fold_pymax_choice l NInf) as [E | Hin]; [ | exact Hin ].
  destruct l as [ | w l]; [ congruence | ].
  assert (Hw : fle w (fold_left pymax (w :: l) NInf)).
  { apply fold_pymax_upper; [ reflexivity | exact Hl | left; reflexivity ]. }
  rewrite E in Hw. apply fle_NInf_r in Hw. rewrite E, <- Hw. left; reflexivity.
Qed.

(** ** The accumulators of the union loop, component by component *)

Lemma fold_accumulate l b :
  fold_left accumulate l b =
  mkBox (mkVector (fold_left pymin (map x l) (x (bmin b)))
                  (fold_left pymin (map y l) (y (bmin b)))
                  (fold_left pymin (map z l) (z (bmin b))))
        (mkVector (fold_left pymax (map x l) (x (bmax b)))
                  (fold_left pymax (map y l) (y (bmax b)))
                  (fold_left pymax (map z l) (z (bmax b)))).
Proof.
  revert b. induction l as [ | c l IH]; intros b; simpl.
  - destruct b as [[? ? ?] [? ? ?]]; reflexivity.
  - rewrite IH. reflexivity.
Qed.

Lemma fold_accumulate_object objs b :
  fold_left accumulate_object objs b =
  fold_left accumulate (all_world_corners objs) b.
Proof.
  revert b. induction objs as [ | obj objs IH]; intros b; [ reflexivity | ].
  unfold all_world_corners. cbn [map concat fold_left].
  rewrite fold_left_app. apply IH.
Qed.

(** The two nested loops visit the world corners of all objects in turn. *)
Lemma computeUnionBounds_flat objs :
  computeUnionBounds objs =
  fold_left accumulate (all_world_corners objs) initial_bounds.
Proof. apply fold_accumulate_object. Qed.

Lemma all_world_corners_nonempty objs : objs <> [] -> all_world_corners objs <> [].
Proof.
  destruct objs as [ | obj objs]; [ congruence | ].
  intros _. unfold all_world_corners. simpl. discriminate.
Qed.


(** ** Equality of vectors and boxes *)

Lemma veq_refl v : veq v v.
Proof. repeat split; apply feq_refl. Qed.

Lemma veq_sym v w : veq v w -> veq w v.
Proof. intros (Hx & Hy & Hz). repeat split; apply feq_sym; assumption. Qed.

Lemma veq_trans u v w : veq u v -> veq v w -> veq u w.
Proof.
  intros (Hx & Hy & Hz) (Hx' & Hy' & Hz').
  repeat split; eapply feq_trans; eassumption.
Qed.

Lemma box_eq_refl b : box_eq b b.
Proof. split; apply veq_refl. Qed.

Lemma box_eq_trans a b c : box_eq a b -> box_eq b c -> box_eq a c.
Proof. intros [Hl Hh] [Hl' Hh']. split; eapply veq_trans; eassumption. Qed.

Lemma accumulate_proper b b' c c' :
  box_eq b b' -> veq c c' -> box_eq (accumulate b c) (accumulate b' c').
Proof.
  intros [(Lx & Ly & Lz) (Hx & Hy & Hz)] (Cx & Cy & Cz).
  unfold accumulate. repeat split; cbn [bmin bmax x y z];
    first [ apply pymin_proper | apply pymax_proper ]; assumption.
Qed.

Lemma accumulate_swap b c d :
  box_eq (accumulate (accumulate b c) d) (accumulate (accumulate b d) c).
Proof.
  unfold accumulate. repeat split; cbn [bmin bmax x y z];
    first [ apply pymin_swap | apply pymax_swap ].
Qed.

(** The loop over corners that are equal one by one, from equal starts. *)
Lemma fold_accumulate_proper l l' :
  Forall2 veq l l' ->
  forall b b', box_eq b b' ->
  box_eq (fold_left accumulate l b) (fold_left accumulate l' b').
Proof.
  induction 1 as [ | c c' l l' Hc Hl IH]; intros b b' Hb; simpl; [ exact Hb | ].
  apply IH. apply accumulate_proper; assumption.
Qed.

Lemma Forall2_veq_refl l : Forall2 veq l l.
Proof. induction l; constructor; [ apply veq_refl | assumption ]. Qed.

(** The loop does not depend on the order of the corners. *)
Lemma fold_accumulate_Permutation l l' :
  Permutation l l' ->
  forall b b', box_eq b b' ->
  box_eq (fold_left accumulate l b) (fold_left accumulate l' b').
Proof.
  induction 1 as [ | c l l' Hp IH | c d l | l l' l'' Hp IH Hp' IH'];
    intros b b' Hb; simpl.
  - exact Hb.
  - apply IH. apply accumulate_proper; [ exact Hb | apply veq_refl ].
  - apply fold_accumulate_proper; [ apply Forall2_veq_refl | ].
    eapply box_eq_trans; [ apply accumulate_swap | ].
    apply accumulate_proper; [ | apply veq_refl ].
    apply accumulate_proper; [ exact Hb | apply veq_refl ].
  - eapply box_eq_trans; [ apply IH, box_eq_refl | apply IH', Hb ].
Qed.

Lemma all_world_corners_Permutation objs objs' :
  Permutation objs objs' ->
  Permutation (all_world_corners objs) (all_world_corners objs').
Proof.
  unfold all_world_corners.
  induction 1 as [ | o l l' Hp IH | o o' l | l l' l'' Hp IH Hp' IH'];
    cbn [map concat].
  - constructor.
  - apply Permutation_app_head. exact IH.
  - rewrite !app_assoc. apply Permutation_app_tail. apply Permutation_app_comm.
  - eapply Permutation_trans; eassumption.
Qed.

(** ** One coordinate of the union box *)

Section Component.

Variable f : Vector -> pyfloat.

Lemma In_component c l : In c l -> In (f c) (map f l).
Proof. apply in_map. Qed.

Lemma min_component l :
  l <> [] -> Forall (fun c => not_nan (f c)) l ->
  (forall c, In c l -> fle (fold_left pymin (map f l) PInf) (f c)) /\
  (exists c, In c l /\ f c = fold_left pymin (map f l) PInf).
Proof.
  intros Hne Hl.
  assert (Hm : Forall not_nan (map f l)).
  { apply Forall_map. exact Hl. }
  split.
  - intros c Hc. apply fold_pymin_lower; [ reflexivity | exact Hm | ].
    apply In_component. exact Hc.
  - assert (Hin : In (fold_left pymin (map f l) PInf) (map f l)).
    { apply fold_pymin_attained; [ | exact Hm ].
      destruct l; [ congruence | discriminate ]. }
    apply in_map_iff in Hin. destruct Hin as (c & E & Hc). exists c. auto.
Qed.

Lemma max_component l :
  l <> [] -> Forall (fun c => not_nan (f c)) l ->
  (forall c, In c l -> fle (f c) (fold_left pymax (map f l) NInf)) /\
  (exists c, In c l /\ f c = fold_left pymax (map f l) NInf).
Proof.
  intros Hne Hl.
  assert (Hm : Forall not_nan (map f l)).
  { apply Forall_map. exact Hl. }
  split.
  - intros c Hc. apply fold_pymax_upper; [ reflexivity | exact Hm | ].
    apply In_component. exact Hc.
  - assert (Hin : In (fold_left pymax (map f l) NInf) (map f l)).
    { apply fold_pymax_attained; [ | exact Hm ].
      destruct l; [ congruence | discriminate ]. }
    apply in_map_iff in Hin. destruct Hin as (c & E & Hc). exists c. auto.
Qed.

End Component.

Lemma finite_not_nan a : finite a = true -> not_nan a.
Proof. destruct a; simpl; intros; try discriminate; reflexivity. Qed.

Lemma finite_Fin a : finite a = true -> exists q, a = Fin q.
Proof. destruct a; simpl; intros; try discriminate. eauto. Qed.

(** ** The verification loop *)

Lemma fold_verify_corner l s :
  fold_left verify_corner l s =
  mkVerification (fold_left pymin (map z l) (min_z_new s))
                 (fold_left fadd (map x l) (center_x_new s))
                 (fold_left fadd (map y l) (center_y_new s))
                 (count s + Z.of_nat (length l))%Z.
Proof.
  revert s. induction l as [ | c l IH]; intros s.
  - destruct s. cbn. f_equal. lia.
  - cbn [fold_left map length]. rewrite IH. cbn [verify_corner min_z_new center_x_new center_y_new count].
    f_equal. lia.
Qed.

Lemma fold_verify_object objs s :
  fold_left verify_object objs s =
  fold_left verify_corner (all_world_corners objs) s.
Proof.
  revert s. induction objs as [ | obj objs IH]; intros s; [ reflexivity | ].
  unfold all_world_corners. cbn [map concat fold_left].
  rewrite fold_left_app. apply IH.
Qed.

(** On a non-empty sequence the verification returns the minimum Z of the
    union box and the two means. *)
Lemma verifyRecenter_nonempty objs :
  objs <> [] ->
  let l := all_world_corners objs in
  verifyRecenter objs =
  Ok (z (bmin (computeUnionBounds objs)),
      fdivq (fold_left fadd (map x l) (Fin 0)) (inject_Z (Z.of_nat (length l))),
      fdivq (fold_left fadd (map y l) (Fin 0)) (inject_Z (Z.of_nat (length l)))).
Proof.
  intros Hne l. unfold verifyRecenter.
  rewrite fold_verify_object, fold_verify_corner.
  cbn [count min_z_new center_x_new center_y_new initial_verification].
  fold l. apply all_world_corners_nonempty in Hne. fold l in Hne.
  destruct (Z.eqb_spec (0 + Z.of_nat (length l)) 0) as [E | _].
  - destruct l; [ congruence | simpl in E; lia ].
  - rewrite computeUnionBounds_flat, fold_accumulate. reflexivity.
Qed.

(** ** Paths of the textures *)

Lemma join_texture_src f :
  relative f -> os_path_join texture_src f = texture_src +:+ "/" +:+ f.
Proof. unfold relative, os_path_join. intros ->. reflexivity. Qed.

Lemma join_export_dir f :
  relative f -> os_path_join export_dir f = export_dir +:+ "/" +:+ f.
Proof. unfold relative, os_path_join. intros ->. reflexivity. Qed.

(** A source path is never a destination path. *)
Lemma src_ne_dst f g :
  relative f -> relative g ->
  os_path_join texture_src f <> os_path_join export_dir g.
Proof.
  intros Hf Hg. rewrite (join_texture_src f Hf), (join_export_dir g Hg).
  unfold texture_src, export_dir. intros H. discriminate H.
Qed.

Lemma dst_inj f g :
  relative f -> relative g ->
  os_path_join export_dir f = os_path_join export_dir g -> f = g.
Proof.
  intros Hf Hg. rewrite (join_export_dir f Hf), (join_export_dir g Hg).
  intros H. apply String.app_inj in H. apply String.app_inj in H. exact H.
Qed.

Lemma plain_relative f : plain f -> relative f.
Proof.
  intros (Hsep & _). unfold relative. destruct f as [ | c f]; [ reflexivity | ].
  cbn in *. apply orb_false_iff in Hsep. apply Hsep.
Qed.

Lemma append_same_l a s : a +:+ s = a -> s = EmptyString.
Proof.
  induction a as [ | c a IH]; cbn; [ auto | ].
  intros H. injection H as H. exact (IH H).
Qed.

Lemma dst_ne_export_dir f :
  relative f -> os_path_join export_dir f <> export_dir.
Proof.
  intros Hf. rewrite (join_export_dir f Hf). intros H.
  apply append_same_l in H. discriminate H.
Qed.

Lemma has_sep_join a f : has_sep (a +:+ "/" +:+ f) = true.
Proof.
  induction a as [ | c a IH]; [ reflexivity | ].
  change (String c a +:+ "/" +:+ f) with (String c (a +:+ "/" +:+ f)).
  cbn [has_sep]. rewrite IH. apply orb_true_r.
Qed.

Lemma rsplit_sep_join a f :
  has_sep f = false -> rsplit_sep (a +:+ "/" +:+ f) = (a +:+ "/", f).
Proof.
  intros Hf. induction a as [ | c a IH].
  - change (EmptyString +:+ "/" +:+ f) with (String "/"%char f).
    cbn [rsplit_sep]. rewrite Hf. reflexivity.
  - change (String c a +:+ "/" +:+ f) with (String c (a +:+ "/" +:+ f)).
    cbn [rsplit_sep]. rewrite has_sep_join, IH. reflexivity.
Qed.

(** The directory of a destination path is the export directory. *)
Lemma dirname_dst f :
  plain f -> dirname (os_path_join export_dir f) = export_dir.
Proof.
  intros Hf. rewrite (join_export_dir f (plain_relative f Hf)).
  destruct Hf as (Hsep & _). unfold dirname.
  rewrite (rsplit_sep_join export_dir f Hsep). reflexivity.
Qed.

(** One texture: the step does not raise on a plain name that the disk
    lets it copy. *)
Lemma copy_texture_plain h f :
  plain f ->
  disk h !! export_dir = Some Directory ->
  copyable (disk h) f = true ->
  copy_texture h f =
  match disk h !! os_path_join texture_src f with
  | Some e =>
      Ok (mkHost (<[os_path_join export_dir f := e]> (disk h))
                 (stdout h ++ ["Copied: " +:+ f]))
  | None => Ok h
  end.
Proof.
  intros Hf Hdir Hcan. pose proof (plain_relative f Hf) as Hrel.
  unfold copy_texture, copy2, copyable, isdir in *. cbv zeta.
  destruct (disk h !! os_path_join texture_src f) as [[file | ] | ];
    [ | discriminate | reflexivity ].
  apply andb_true_iff in Hcan. destruct Hcan as (Hread & Hdst).
  assert (Hne : String.eqb (os_path_join texture_src f) (os_path_join export_dir f) = false).
  { apply String.eqb_neq. apply src_ne_dst; assumption. }
  destruct (disk h !! os_path_join export_dir f) as [[g | ] | ] eqn:Edst.
  - rewrite Hne, Hread. cbn [negb]. rewrite Edst, Hdst. reflexivity.
  - discriminate.
  - rewrite Hne, Hread. cbn [negb]. rewrite Edst, (dirname_dst f Hf), Hdir.
    reflexivity.
Qed.

(** The whole loop on distinct plain names that the disk lets it copy: it
    returns, prints one line for each name present at the source, copies
    each of them, and leaves every other path of the disk as it was. *)
Lemma copy_textures_plain files :
  Forall plain files -> List.NoDup files ->
  forall h,
    disk h !! export_dir = Some Directory ->
    Forall (fun f => copyable (disk h) f = true) files ->
    exists h',
      copy_textures files h = Ok h' /\
      stdout h' =
        stdout h ++ map (fun f => "Copied: " +:+ f) (List.filter (exists_src (disk h)) files) /\
      (forall f, In f files -> exists_src (disk h) f = true ->
         disk h' !! os_path_join export_dir f = disk h !! os_path_join texture_src f) /\
      (forall p, (forall f, In f files -> exists_src (disk h) f = true ->
                    p <> os_path_join export_dir f) ->
         disk h' !! p = disk h !! p).
Proof.
  induction 1 as [ | f files Hf Hfiles IH]; intros Hnodup h Hdir Hcan.
  - exists h. cbn. rewrite app_nil_r.
    split; [ reflexivity | ]. split; [ reflexivity | ].
    split; [ intros f [] | reflexivity ].
  - apply NoDup_cons_iff in Hnodup. destruct Hnodup as (Hnotin & Hnodup).
    apply List.Forall_cons_iff in Hcan. destruct Hcan as (Hcanf & Hcan).
    pose proof (plain_relative f Hf) as Hrel.
    assert (Hfiles' : forall g, In g files -> relative g).
    { intros g Hg. apply plain_relative.
      revert g Hg. apply List.Forall_forall. exact Hfiles. }
    cbn [copy_textures]. rewrite (copy_texture_plain h f Hf Hdir Hcanf).
    cbn [List.filter].
    destruct (disk h !! os_path_join texture_src f) as [e | ] eqn:Esrc.
    + assert (Hpres : exists_src (disk h) f = true).
      { unfold exists_src. rewrite Esrc. reflexivity. }
      rewrite Hpres.
      set (h1 := mkHost (<[os_path_join export_dir f := e]> (disk h))
                        (stdout h ++ ["Copied: " +:+ f])).
      assert (Hsrc : forall g, relative g ->
                disk h1 !! os_path_join texture_src g =
                disk h !! os_path_join texture_src g).
      { intros g Hg. apply lookup_insert_ne.
        intros E. symmetry in E. exact (src_ne_dst g f Hg Hrel E). }
      assert (Hdst : forall g, In g files ->
                disk h1 !! os_path_join export_dir g =
                disk h !! os_path_join export_dir g).
      { intros g Hg. apply lookup_insert_ne. intros E.
        apply Hnotin. rewrite (dst_inj f g Hrel (Hfiles' g Hg) E). exact Hg. }
      assert (Hex : forall g, In g files ->
                exists_src (disk h1) g = exists_src (disk h) g).
      { intros g Hg. unfold exists_src. rewrite (Hsrc g (Hfiles' g Hg)). reflexivity. }
      assert (Hdir1 : disk h1 !! export_dir = Some Directory).
      { cbn [disk h1]. rewrite lookup_insert_ne; [ exact Hdir | ].
        apply dst_ne_export_dir. exact Hrel. }
      assert (Hcan1 : Forall (fun g => copyable (disk h1) g = true) files).
      { apply List.Forall_forall. intros g Hg. unfold copyable.
        rewrite (Hsrc g (Hfiles' g Hg)), (Hdst g Hg).
        revert g Hg. apply List.Forall_forall. exact Hcan. }
      destruct (IH Hnodup h1 Hdir1 Hcan1) as (h' & Hrun & Hout & Hcopy & Hframe).
      exists h'. split; [ exact Hrun | ]. split; [ | split ].
      * rewrite Hout. cbn [stdout h1 map]. rewrite <- app_assoc. cbn [app].
        do 2 f_equal. f_equal. apply filter_ext_in. exact Hex.
      * intros g [<- | Hg] Hpresent.
        -- rewrite Hframe.
           ++ cbn [disk h1]. rewrite lookup_insert_eq. symmetry. exact Esrc.
           ++ intros g Hg _ E. apply Hnotin.
              rewrite (dst_inj f g Hrel (Hfiles' g Hg) E). exact Hg.
        -- rewrite (Hcopy g Hg); [ apply Hsrc; auto | ].
           rewrite (Hex g Hg). exact Hpresent.
      * intros p Hp. rewrite Hframe.
        -- cbn [disk h1]. apply lookup_insert_ne. intros E.
           apply (Hp f); [ left; reflexivity | | symmetry; exact E ].
           exact Hpres.
        -- intros g Hg Hpresent. apply Hp; [ right; exact Hg | ].
           rewrite <- (Hex g Hg). exact Hpresent.
    + assert (Hpres : exists_src (disk h) f = false).
      { unfold exists_src. rewrite Esrc. reflexivity. }
      rewrite Hpres.
      destruct (IH Hnodup h Hdir Hcan) as (h' & Hrun & Hout & Hcopy & Hframe).
      exists h'. split; [ exact Hrun | ]. split; [ exact Hout | split ].
      * intros g [<- | Hg] Hpresent.
        -- congruence.
        -- apply Hcopy; assumption.
      * intros p Hp. apply Hframe. intros g Hg. apply Hp. right; exact Hg.
Qed.


(** ** The world corners, one by one *)

Lemma In_all_world_corners objs w :
  In w (all_world_corners objs) <->
  exists obj c,
    In obj objs /\ In c (corners (bound_box obj)) /\
    w = matmul (matrix_world obj) (Vector_copy c).
Proof.
  unfold all_world_corners, world_corners. rewrite in_concat. split.
  - intros (l & Hl & Hw). apply in_map_iff in Hl. destruct Hl as (obj & <- & Hobj).
    apply in_map_iff in Hw. destruct Hw as (c & <- & Hc).
    exists obj, c. auto.
  - intros (obj & c & Hobj & Hc & ->). eexists. split.
    + apply in_map_iff. exists obj. split; [ reflexivity | exact Hobj ].
    + apply in_map_iff. exists c. split; [ reflexivity | exact Hc ].
Qed.


(** Side conditions on concrete lists of names and concrete disks. *)
Ltac plain_names :=
  repeat (constructor; [ repeat split; try reflexivity; discriminate | ]);
  constructor.

Ltac distinct_names :=
  repeat (constructor; [ cbn; intuition discriminate | ]); constructor.

Ltac all_copyable :=
  repeat (constructor; [ vm_compute; reflexivity | ]); constructor.

(** ** The union bounding box *)

(** C1.  For a non-empty sequence of mesh objects whose world corners
    [obj.matrix_world @ Vector(corner)] have no [nan] component,
    [computeUnionBounds] returns the componentwise minimum and maximum over
    the eight world corners of every object: every world corner lies within
    the box, and each of the six bounds is the coordinate of some world
    corner.  A world corner is the image of the local corner under the
    affine map of the world matrix whenever that image is computed without
    rounding. *)
Theorem computeUnionBounds_min_max (objs : list Object) :
  objs <> [] ->
  (forall obj c, In obj objs -> In c (corners (bound_box obj)) ->
     vnot_nan (matmul (matrix_world obj) (Vector_copy c))) ->
  let box := computeUnionBounds objs in
  let corner_of := fun w =>
    exists obj c, In obj objs /\ In c (corners (bound_box obj)) /\
                  w = matmul (matrix_world obj) (Vector_copy c) in
  (forall obj c, In obj objs -> In c (corners (bound_box obj)) ->
     inside box (matmul (matrix_world obj) (Vector_copy c))) /\
  (exists w, corner_of w /\ x w = x (bmin box)) /\
  (exists w, corner_of w /\ x w = x (bmax box)) /\
  (exists w, corner_of w /\ y w = y (bmin box)) /\
  (exists w, corner_of w /\ y w = y (bmax box)) /\
  (exists w, corner_of w /\ z w = z (bmin box)) /\
  (exists w, corner_of w /\ z w = z (bmax box)) /\
  (forall obj c, In obj objs -> In c (corners (bound_box obj)) ->
     exact_transform (matrix_world obj) c ->
     veq (matmul (matrix_world obj) (Vector_copy c))
         (affine_image (matrix_world obj) c)).
Proof.
  intros Hne Hnan box corner_of. subst box.
  rewrite computeUnionBounds_flat, fold_accumulate. cbn [bmin bmax x y z initial_bounds].
  apply all_world_corners_nonempty in Hne.
  set (l := all_world_corners objs) in *.
  assert (Hl : Forall vnot_nan l).
  { apply List.Forall_forall. intros w Hw. apply In_all_world_corners in Hw.
    destruct Hw as (obj & c & Hobj & Hc & ->). apply Hnan; assumption. }
  assert (Hx : Forall (fun c => not_nan (x c)) l).
  { eapply Forall_impl; [ exact Hl | ]. intros c H; apply H. }
  assert (Hy : Forall (fun c => not_nan (y c)) l).
  { eapply Forall_impl; [ exact Hl | ]. intros c H; apply H. }
  assert (Hz : Forall (fun c => not_nan (z c)) l).
  { eapply Forall_impl; [ exact Hl | ]. intros c H; apply H. }
  destruct (min_component x l Hne Hx) as [Lx (cx & Ix & Ex)].
  destruct (min_component y l Hne Hy) as [Ly (cy & Iy & Ey)].
  destruct (min_component z l Hne Hz) as [Lz (cz & Iz & Ez)].
  destruct (max_component x l Hne Hx) as [Ux (dx & Jx & Fx)].
  destruct (max_component y l Hne Hy) as [Uy (dy & Jy & Fy)].
  destruct (max_component z l Hne Hz) as [Uz (dz & Jz & Fz)].
  assert (Hin : forall obj c, In obj objs -> In c (corners (bound_box obj)) ->
                  In (matmul (matrix_world obj) (Vector_copy c)) l).
  { intros obj c Hobj Hc. apply In_all_world_corners. exists obj, c. auto. }
  split; [ intros obj c Hobj Hc; pose proof (Hin obj c Hobj Hc); repeat split; auto | ].
  split; [ exists cx; split; [ apply In_all_world_corners, Ix | exact Ex ] | ].
  split; [ exists dx; split; [ apply In_all_world_corners, Jx | exact Fx ] | ].
  split; [ exists cy; split; [ apply In_all_world_corners, Iy | exact Ey ] | ].
  split; [ exists dy; split; [ apply In_all_world_corners, Jy | exact Fy ] | ].
  split; [ exists cz; split; [ apply In_all_world_corners, Iz | exact Ez ] | ].
  split; [ exists dz; split; [ apply In_all_world_corners, Jz | exact Fz ] | ].
  intros obj c _ _ H. apply matmul_exact. exact H.
Qed.

(** At the unit cube placed at (10, 5, 2). *)
Lemma computeUnionBounds_min_max_witness :
  let objs := [cube_at_10_5_2] in
  let box := computeUnionBounds objs in
  let corner_of := fun w =>
    exists obj c, In obj objs /\ In c (corners (bound_box obj)) /\
                  w = matmul (matrix_world obj) (Vector_copy c) in
  (forall obj c, In obj objs -> In c (corners (bound_box obj)) ->
     inside box (matmul (matrix_world obj) (Vector_copy c))) /\
  (exists w, corner_of w /\ x w = x (bmin box)) /\
  (exists w, corner_of w /\ x w = x (bmax box)) /\
  (exists w, corner_of w /\ y w = y (bmin box)) /\
  (exists w, corner_of w /\ y w = y (bmax box)) /\
  (exists w, corner_of w /\ z w = z (bmin box)) /\
  (exists w, corner_of w /\ z w = z (bmax box)) /\
  (forall obj c, In obj objs -> In c (corners (bound_box obj)) ->
     exact_transform (matrix_world obj) c ->
     veq (matmul (matrix_world obj) (Vector_copy c))
         (affine_image (matrix_world obj) c)).
Proof.
  apply (computeUnionBounds_min_max [cube_at_10_5_2]).
  - discriminate.
  - intros obj c [<- | []] Hc. cbn [In cube_at_10_5_2 placed bound_box corners unit_cube box_corners] in Hc.
    repeat (destruct Hc as [<- | Hc]); [ .. | destruct Hc ];
      vm_compute; repeat split.
Defined.

(** C1, with a [nan] corner.  The corners of a mesh whose world matrix has
    a [nan] translation are [nan]: they are not within the union box of
    the trunk, this mesh and the crown, and when the mesh is alone no
    corner has the minimum X of the box, which is still [inf]. *)
Lemma computeUnionBounds_nan_corner :
  In lost [trunk; lost; crown] /\
  In (b0 unit_cube) (corners (bound_box lost)) /\
  ~ inside (computeUnionBounds [trunk; lost; crown])
           (matmul (matrix_world lost) (Vector_copy (b0 unit_cube))) /\
  [lost] <> [] /\
  x (bmin (computeUnionBounds [lost])) = PInf /\
  ~ (exists c, In c (corners (bound_box lost)) /\
               x (matmul (matrix_world lost) (Vector_copy c)) =
               x (bmin (computeUnionBounds [lost]))).
Proof.
  split; [ right; left; reflexivity | ].
  split; [ left; reflexivity | ].
  split; [ vm_compute; tauto | ].
  split; [ discriminate | ].
  split; [ vm_compute; reflexivity | ].
  intros (c & Hc & E). cbn [lost placed bound_box corners unit_cube box_corners In] in Hc.
  repeat (destruct Hc as [<- | Hc]); [ .. | destruct Hc ];
    vm_compute in E; discriminate E.
Qed.

(** C9.  [computeUnionBounds] returns the same box, as a box of numbers,
    for a sequence of mesh objects and for every permutation of it. *)
Theorem computeUnionBounds_order_independent (objs objs' : list Object) :
  Permutation objs objs' ->
  box_eq (computeUnionBounds objs) (computeUnionBounds objs').
Proof.
  intros Hp. rewrite !computeUnionBounds_flat.
  apply fold_accumulate_Permutation; [ | apply box_eq_refl ].
  apply all_world_corners_Permutation. exact Hp.
Qed.

Lemma computeUnionBounds_order_independent_witness :
  box_eq (computeUnionBounds [trunk; crown]) (computeUnionBounds [crown; trunk]).
Proof.
  apply (computeUnionBounds_order_independent [trunk; crown] [crown; trunk]).
  apply perm_swap.
Defined.

(** The order of the corners inside the objects does not matter either. *)
Lemma computeUnionBounds_corner_order (objs objs' : list Object) :
  Permutation (all_world_corners objs) (all_world_corners objs') ->
  box_eq (computeUnionBounds objs) (computeUnionBounds objs').
Proof.
  intros Hp. rewrite !computeUnionBounds_flat.
  apply fold_accumulate_Permutation; [ exact Hp | apply box_eq_refl ].
Qed.

(** ** The offset *)




(** C10.  Two boxes that agree on every component but [max.z] have the
    same offset. *)
Theorem computeRecenterOffset_ignores_max_z (b1 b2 : BoundingBox) :
  x (bmin b1) = x (bmin b2) ->
  x (bmax b1) = x (bmax b2) ->
  y (bmin b1) = y (bmin b2) ->
  y (bmax b1) = y (bmax b2) ->
  z (bmin b1) = z (bmin b2) ->
  computeRecenterOffset b1 = computeRecenterOffset b2.
Proof.
  intros Hlx Hhx Hly Hhy Hlz. unfold computeRecenterOffset.
  rewrite Hlx, Hhx, Hly, Hhy, Hlz. reflexivity.
Qed.

Lemma computeRecenterOffset_ignores_max_z_witness :
  computeRecenterOffset (mkBox (vec 0 0 0) (vec 2 4 1)) =
  computeRecenterOffset (mkBox (vec 0 0 0) (vec 2 4 7)).
Proof.
  apply computeRecenterOffset_ignores_max_z; reflexivity.
Defined.

(** ** Moving the objects *)




Lemma stores_sum_twice_f32 a b :
  stores_sum_twice a b (f32 (fadd (f32 (fadd a b)) b)).
Proof.
  split; [ reflexivity | ]. intros p q -> -> H1 H2. cbn [fadd].
  assert (E1 : feq (f32 (Fin (p + q))) (Fin (p + q))).
  { apply f32_exact; [ reflexivity | exact H1 ]. }
  apply (feq_trans _ (Fin (p + q + q))); [ | simpl; ring ].
  apply f32_exact; [ | exact H2 ].
  apply fadd_Fin; [ exact E1 | reflexivity ].
Qed.

(** C7.  Applying [applyOffset] twice with the same offset adds the offset
    twice, in binary32, to the location of each object and leaves its world
    matrix as it was; the location is moved by exactly twice the offset
    when the two sums are binary32 numbers. *)
Theorem applyOffset_twice (objs : list Object) (offset : Vector) :
  Forall2 (fun moved obj =>
             stores_sum_twice (x (location obj)) (x offset) (x (location moved)) /\
             stores_sum_twice (y (location obj)) (y offset) (y (location moved)) /\
             stores_sum_twice (z (location obj)) (z offset) (z (location moved)) /\
             matrix_world moved = matrix_world obj)
          (applyOffset (applyOffset objs offset) offset) objs.
Proof.
  induction objs as [ | obj objs IH]; cbn [applyOffset map]; constructor;
    [ | exact IH ].
  cbn [translate location matrix_world iadd x y z].
  split; [ apply stores_sum_twice_f32 | ].
  split; [ apply stores_sum_twice_f32 | ].
  split; [ apply stores_sum_twice_f32 | reflexivity ].
Qed.

(** C7, where the offset is absorbed.  At X = 2^24 the binary32 numbers are
    the even integers: the offset (1, 0, 0) applied once or twice to a cube
    located there leaves its location where it was. *)
Lemma applyOffset_absorbed :
  map location [far_cube] = [vec 16777216 0 0] /\
  Forall2 veq (map location (applyOffset [far_cube] (vec 1 0 0)))
              [vec 16777216 0 0] /\
  Forall2 veq (map location (applyOffset (applyOffset [far_cube] (vec 1 0 0)) (vec 1 0 0)))
              [vec 16777216 0 0] /\
  ~ Forall2 veq (map location (applyOffset (applyOffset [far_cube] (vec 1 0 0)) (vec 1 0 0)))
                [vec 16777218 0 0].
Proof.
  split; [ reflexivity | ].
  split; [ vm_compute; repeat constructor | ].
  split; [ vm_compute; repeat constructor | ].
  intros H. inversion H as [ | ? ? ? ? Hv _]; subst.
  destruct Hv as (Hx & _). vm_compute in Hx. discriminate Hx.
Qed.

(** Where no rounding occurs the second application is not absorbed by the
    first. *)
Lemma applyOffset_not_idempotent :
  let offset := vec (-10) (-5) (-1.5) in
  ~ Forall2 (fun twice_moved moved => veq (location twice_moved) (location moved))
            (applyOffset (applyOffset [cube_at_10_5_2] offset) offset)
            (applyOffset [cube_at_10_5_2] offset).
Proof.
  intros offset H. inversion H as [ | ? ? ? ? Hv _]; subst.
  destruct Hv as (Hx & _). vm_compute in Hx. discriminate Hx.
Qed.

(** ** The scenario of the unit cube *)

(** C6.  For the unit cube spanning -0.5 .. 0.5 placed at (10, 5, 2): the
    union box is (9.5, 4.5, 1.5) .. (10.5, 5.5, 2.5), the offset is
    (-10, -5, -1.5), and the box re-evaluated after the offset is applied,
    once the scene is evaluated again and once the transforms are baked, is
    (-0.5, -0.5, 0) .. (0.5, 0.5, 1). *)
Theorem unit_cube_scenario :
  box_eq (computeUnionBounds [cube_at_10_5_2])
         (mkBox (vec 9.5 4.5 1.5) (vec 10.5 5.5 2.5)) /\
  veq (computeRecenterOffset (computeUnionBounds [cube_at_10_5_2]))
      (vec (-10) (-5) (-1.5)) /\
  box_eq (computeUnionBounds
            (view_layer_update
               (applyOffset [cube_at_10_5_2]
                  (computeRecenterOffset (computeUnionBounds [cube_at_10_5_2])))))
         (mkBox (vec (-0.5) (-0.5) 0) (vec 0.5 0.5 1)) /\
  box_eq (computeUnionBounds
            (transform_apply
               (applyOffset [cube_at_10_5_2]
                  (computeRecenterOffset (computeUnionBounds [cube_at_10_5_2])))))
         (mkBox (vec (-0.5) (-0.5) 0) (vec 0.5 0.5 1)).
Proof.
  vm_compute. repeat split.
Qed.

(** ** Recentring *)


(** ** The empty scene *)

(** C4.  When the scene has no mesh object, the union loop returns the box
    it started from, with minimum [inf] and maximum [-inf]; the script
    raises [IndexError] at line 58, and no object was moved before. *)
Theorem empty_scene_IndexError (objects : list Object) :
  mesh_objects objects = [] ->
  computeUnionBounds (mesh_objects objects) = initial_bounds /\
  recenter_scene objects = ([], Raise IndexError).
Proof.
  intros Hempty. unfold recenter_scene. rewrite Hempty. split; reflexivity.
Qed.

Lemma empty_scene_IndexError_witness :
  computeUnionBounds (mesh_objects [camera]) = initial_bounds /\
  recenter_scene [camera] = ([], Raise IndexError).
Proof.
  apply (empty_scene_IndexError [camera]). reflexivity.
Defined.

(** C4, on the empty sequence.  [computeUnionBounds] returns a box, whose
    maximum is below its minimum in every component; the exception of the
    script is the [IndexError] of line 58. *)
Lemma computeUnionBounds_empty_degenerate :
  computeUnionBounds [] = mkBox (mkVector PInf PInf PInf) (mkVector NInf NInf NInf) /\
  flt (x (bmax (computeUnionBounds []))) (x (bmin (computeUnionBounds []))) = true /\
  flt (y (bmax (computeUnionBounds []))) (y (bmin (computeUnionBounds []))) = true /\
  flt (z (bmax (computeUnionBounds []))) (z (bmin (computeUnionBounds []))) = true /\
  recenter_scene [] = ([], Raise IndexError).
Proof. repeat split. Qed.

(** ** The textures *)



(** * Further properties of the script *)

(** ** The union loop *)

Lemma fold_pymin_from l a :
  not_nan a ->
  feq (fold_left pymin l a) (pymin a (fold_left pymin l PInf)).
Proof.
  revert a. induction l as [ | v l IH]; intros a Ha; cbn [fold_left].
  - destruct a; try discriminate; cbn; auto; reflexivity.
  - eapply feq_trans; [ apply IH, pymin_not_nan, Ha | ].
    assert (Hm : not_nan (fold_left pymin l PInf)).
    { apply fold_pymin_not_nan. reflexivity. }
    eapply feq_trans;
      [ | apply pymin_proper;
          [ apply feq_refl | apply feq_sym, IH, pymin_not_nan; reflexivity ] ].
    revert Ha Hm. generalize (fold_left pymin l PInf). intros m.
    unfold not_nan, pymin. float_cases.
Qed.

Lemma fold_pymax_from l a :
  not_nan a ->
  feq (fold_left pymax l a) (pymax a (fold_left pymax l NInf)).
Proof.
  revert a. induction l as [ | v l IH]; intros a Ha; cbn [fold_left].
  - destruct a; try discriminate; cbn; auto; reflexivity.
  - eapply feq_trans; [ apply IH, pymax_not_nan, Ha | ].
    assert (Hm : not_nan (fold_left pymax l NInf)).
    { apply fold_pymax_not_nan. reflexivity. }
    eapply feq_trans;
      [ | apply pymax_proper;
          [ apply feq_refl | apply feq_sym, IH, pymax_not_nan; reflexivity ] ].
    revert Ha Hm. generalize (fold_left pymax l NInf). intros m.
    unfold not_nan, pymax. float_cases.
Qed.

Lemma all_world_corners_app objs objs' :
  all_world_corners (objs ++ objs') =
  all_world_corners objs ++ all_world_corners objs'.
Proof. unfold all_world_corners. rewrite map_app, concat_app. reflexivity. Qed.

(** X1.  No accumulator of the union loop is ever [nan], whatever the
    corners are: a [nan] coordinate is never taken by [min] or [max]. *)
Theorem computeUnionBounds_never_nan (objs : list Object) :
  vnot_nan (bmin (computeUnionBounds objs)) /\
  vnot_nan (bmax (computeUnionBounds objs)).
Proof.
  rewrite computeUnionBounds_flat, fold_accumulate.
  cbn [bmin bmax x y z initial_bounds].
  repeat split;
    first [ apply fold_pymin_not_nan | apply fold_pymax_not_nan ]; reflexivity.
Qed.

(** X2.  For a non-empty sequence of objects whose world corners have no
    [nan] component, the minimum corner of the union box is below its
    maximum corner in every component. *)
Theorem computeUnionBounds_ordered (objs : list Object) :
  objs <> [] ->
  Forall vnot_nan (all_world_corners objs) ->
  box_ordered (computeUnionBounds objs).
Proof.
  intros Hne Hnan. unfold box_ordered.
  rewrite computeUnionBounds_flat, fold_accumulate.
  cbn [bmin bmax x y z initial_bounds].
  apply all_world_corners_nonempty in Hne.
  set (l := all_world_corners objs) in *.
  assert (Hx : Forall (fun c => not_nan (x c)) l).
  { eapply Forall_impl; [ exact Hnan | ]. intros c H; apply H. }
  assert (Hy : Forall (fun c => not_nan (y c)) l).
  { eapply Forall_impl; [ exact Hnan | ]. intros c H; apply H. }
  assert (Hz : Forall (fun c => not_nan (z c)) l).
  { eapply Forall_impl; [ exact Hnan | ]. intros c H; apply H. }
  destruct l as [ | c l']; [ congruence | ].
  assert (Hc : In c (c :: l')) by (left; reflexivity).
  repeat split.
  - eapply fle_trans;
      [ apply (min_component x (c :: l') Hne Hx), Hc
      | apply (max_component x (c :: l') Hne Hx), Hc ].
  - eapply fle_trans;
      [ apply (min_component y (c :: l') Hne Hy), Hc
      | apply (max_component y (c :: l') Hne Hy), Hc ].
  - eapply fle_trans;
      [ apply (min_component z (c :: l') Hne Hz), Hc
      | apply (max_component z (c :: l') Hne Hz), Hc ].
Qed.

Lemma computeUnionBounds_ordered_witness :
  box_ordered (computeUnionBounds [trunk; crown]).
Proof.
  apply (computeUnionBounds_ordered [trunk; crown]).
  - discriminate.
  - vm_compute. repeat constructor.
Defined.

(** X3.  The union box of two sequences of objects put end to end is the
    smallest box that holds the union boxes of both. *)
Theorem computeUnionBounds_app (objs objs' : list Object) :
  box_eq (computeUnionBounds (objs ++ objs'))
         (box_join (computeUnionBounds objs) (computeUnionBounds objs')).
Proof.
  rewrite !computeUnionBounds_flat, all_world_corners_app, fold_left_app.
  rewrite !fold_accumulate. unfold box_join.
  cbn [bmin bmax x y z initial_bounds].
  repeat split; cbn [bmin bmax x y z];
    first [ apply fold_pymin_from; apply fold_pymin_not_nan; reflexivity
          | apply fold_pymax_from; apply fold_pymax_not_nan; reflexivity ].
Qed.

(** ** The offset of a union box *)

(** A stored value is stored again as it is, and so is its opposite. *)
Lemma f32_fneg_stored a : feq (f32 (fneg (f32 a))) (fneg (f32 a)).
Proof.
  destruct (f32 a) as [ | | r | ] eqn:E; try exact I.
  apply f32_exact; [ simpl; reflexivity | ].
  apply binary32_opp. exact (f32_binary32 a r E).
Qed.

(** X24.  The Z component of the offset computed from the union box of any
    sequence of objects is the opposite of the minimum Z of the box, with
    no rounding: the minimum is [inf] or a coordinate that [@] stored. *)
Theorem computeRecenterOffset_z_exact (objs : list Object) :
  feq (z (computeRecenterOffset (computeUnionBounds objs)))
      (fneg (z (bmin (computeUnionBounds objs)))).
Proof.
  unfold computeRecenterOffset, Vector3. cbn [z].
  rewrite computeUnionBounds_flat, fold_accumulate.
  cbn [bmin z initial_bounds].
  destruct (fold_pymin_choice (map z (all_world_corners objs)) PInf) as [-> | Hin].
  - exact I.
  - apply in_map_iff in Hin. destruct Hin as (w & <- & Hw).
    apply In_all_world_corners in Hw. destruct Hw as (obj & c & _ & _ & ->).
    cbn [matmul z]. unfold dot. apply f32_fneg_stored.
Qed.

(** ** The verification loop *)

Lemma length_all_world_corners objs :
  length (all_world_corners objs) = (8 * length objs)%nat.
Proof.
  unfold all_world_corners. induction objs as [ | obj objs IH]; [ reflexivity | ].
  cbn [map concat]. rewrite length_app, IH. cbn [length world_corners corners map]. lia.
Qed.

Lemma verifyRecenter_mean objs :
  objs <> [] ->
  verifyRecenter objs =
  Ok (z (bmin (computeUnionBounds objs)),
      mean x (all_world_corners objs), mean y (all_world_corners objs)).
Proof. intros Hne. apply (verifyRecenter_nonempty objs Hne). Qed.

(** X8.  The verification counts eight corners for each object.  On the
    empty sequence its division raises [ZeroDivisionError]; on any other
    sequence it returns, and the minimum Z it returns is the [min.z] of the
    union box of the same objects. *)
Theorem verifyRecenter_outcome (objs : list Object) :
  count (fold_left verify_object objs initial_verification) =
    (8 * Z.of_nat (length objs))%Z /\
  match objs with
  | [] => verifyRecenter objs = Raise ZeroDivisionError
  | _ :: _ =>
      exists cx cy,
        verifyRecenter objs = Ok (z (bmin (computeUnionBounds objs)), cx, cy)
  end.
Proof.
  split.
  - rewrite fold_verify_object, fold_verify_corner. cbn [count initial_verification].
    rewrite length_all_world_corners. lia.
  - destruct objs as [ | obj objs]; [ reflexivity | ].
    eexists _, _. apply verifyRecenter_mean. discriminate.
Qed.

Lemma inject_Z_S n : inject_Z (Z.of_nat (S n)) == inject_Z (Z.of_nat n) + 1.
Proof. rewrite Nat2Z.inj_succ. unfold Z.succ. rewrite inject_Z_plus. reflexivity. Qed.

Lemma inject_Z_length_pos {A : Type} (l : list A) :
  l <> [] -> 0 < inject_Z (Z.of_nat (length l)).
Proof.
  destruct l as [ | a l]; [ congruence | ]. intros _.
  cbn [length]. rewrite inject_Z_S.
  assert (0 <= inject_Z (Z.of_nat (length l))).
  { change 0 with (inject_Z 0). rewrite <- Zle_Qle. lia. }
  lra.
Qed.

(** The sum of finite floats is the float of the sum. *)
Lemma fold_fadd_finite {A : Type} (f : A -> pyfloat) l a :
  Forall (fun c => finite (f c) = true) l ->
  fold_left fadd (map f l) (Fin a) =
  Fin (fold_left Qplus (map (fun c => qval (f c)) l) a).
Proof.
  intros H. revert a. induction H as [ | c l Hc Hl IH]; intros a; [ reflexivity | ].
  cbn [map fold_left]. destruct (f c) eqn:E; try discriminate.
  cbn [fadd qval]. apply IH.
Qed.

Lemma fold_Qplus_between qs lo hi a :
  Forall (fun v => lo <= v /\ v <= hi) qs ->
  a + inject_Z (Z.of_nat (length qs)) * lo <= fold_left Qplus qs a /\
  fold_left Qplus qs a <= a + inject_Z (Z.of_nat (length qs)) * hi.
Proof.
  intros H. revert a. induction H as [ | v qs [Hlo Hhi] Hqs IH]; intros a.
  - cbn [fold_left length Z.of_nat]. change (inject_Z (Z.of_nat 0)) with 0. split; lra.
  - cbn [fold_left length]. destruct (IH (a + v)) as [L U].
    rewrite inject_Z_S. set (n := inject_Z (Z.of_nat (length qs))) in *.
    split; nra.
Qed.

(** The mean of a component lies between its minimum and its maximum. *)
Lemma mean_between (f : Vector -> pyfloat) l :
  l <> [] -> Forall (fun c => finite (f c) = true) l ->
  fle (fold_left pymin (map f l) PInf) (mean f l) /\
  fle (mean f l) (fold_left pymax (map f l) NInf).
Proof.
  intros Hne Hfin.
  assert (Hnan : Forall (fun c => not_nan (f c)) l).
  { eapply Forall_impl; [ exact Hfin | ]. intros c H. apply finite_not_nan, H. }
  destruct (min_component f l Hne Hnan) as [Hlow (cl & Il & El)].
  destruct (max_component f l Hne Hnan) as [Hupp (ch & Ih & Eh)].
  assert (Hf : forall c, In c l -> finite (f c) = true).
  { apply List.Forall_forall. exact Hfin. }
  destruct (finite_Fin (f cl) (Hf cl Il)) as [lo Elo].
  destruct (finite_Fin (f ch) (Hf ch Ih)) as [hi Ehi].
  rewrite <- El, Elo in *. rewrite <- Eh, Ehi in *.
  unfold mean. rewrite (fold_fadd_finite f l 0 Hfin). cbn [fdivq fle].
  assert (Hq : Forall (fun v => lo <= v /\ v <= hi) (map (fun c => qval (f c)) l)).
  { apply Forall_map. apply List.Forall_forall. intros c Hc. cbn.
    specialize (Hlow c Hc). specialize (Hupp c Hc).
    destruct (finite_Fin (f c) (Hf c Hc)) as [v Ev]. rewrite Ev in *.
    cbn in *. split; assumption. }
  destruct (fold_Qplus_between _ lo hi 0 Hq) as [L U].
  rewrite length_map in L, U.
  pose proof (inject_Z_length_pos l Hne) as Hpos.
  split.
  - apply Qle_shift_div_l; [ exact Hpos | ]. lra.
  - apply Qle_shift_div_r; [ exact Hpos | ]. lra.
Qed.

(** X9.  For a non-empty sequence of objects with finite world corners, the
    mean X and the mean Y that the verification returns lie within the X
    and Y extents of the union box of the same objects. *)
Theorem verifyRecenter_mean_inside (objs : list Object) :
  objs <> [] ->
  Forall vfinite (all_world_corners objs) ->
  exists mz cx cy,
    verifyRecenter objs = Ok (mz, cx, cy) /\
    fle (x (bmin (computeUnionBounds objs))) cx /\
    fle cx (x (bmax (computeUnionBounds objs))) /\
    fle (y (bmin (computeUnionBounds objs))) cy /\
    fle cy (y (bmax (computeUnionBounds objs))).
Proof.
  intros Hne Hfin. eexists _, _, _. split; [ apply verifyRecenter_mean, Hne | ].
  rewrite computeUnionBounds_flat, fold_accumulate.
  cbn [bmin bmax x y z initial_bounds].
  apply all_world_corners_nonempty in Hne.
  assert (Hx : Forall (fun c => finite (x c) = true) (all_world_corners objs)).
  { eapply Forall_impl; [ exact Hfin | ]. intros c H; apply H. }
  assert (Hy : Forall (fun c => finite (y c) = true) (all_world_corners objs)).
  { eapply Forall_impl; [ exact Hfin | ]. intros c H; apply H. }
  destruct (mean_between x _ Hne Hx) as [Lx Ux].
  destruct (mean_between y _ Hne Hy) as [Ly Uy].
  repeat split; assumption.
Qed.

Lemma verifyRecenter_mean_inside_witness :
  exists mz cx cy,
    verifyRecenter [trunk; crown] = Ok (mz, cx, cy) /\
    fle (x (bmin (computeUnionBounds [trunk; crown]))) cx /\
    fle cx (x (bmax (computeUnionBounds [trunk; crown]))) /\
    fle (y (bmin (computeUnionBounds [trunk; crown]))) cy /\
    fle cy (y (bmax (computeUnionBounds [trunk; crown]))).
Proof.
  apply (verifyRecenter_mean_inside [trunk; crown]).
  - discriminate.
  - vm_compute. repeat constructor.
Defined.

(** ** Corners that are not numbers *)

Lemma accumulate_nan b : accumulate b (mkVector NaN NaN NaN) = b.
Proof.
  destruct b as [[lx ly lz] [hx hy hz]]. unfold accumulate. cbn [bmin bmax x y z].
  rewrite !pymin_nan_r, !pymax_nan_r. reflexivity.
Qed.

Lemma fold_accumulate_nan l b :
  Forall (fun c => c = mkVector NaN NaN NaN) l -> fold_left accumulate l b = b.
Proof.
  induction 1 as [ | c l Hc Hl IH]; [ reflexivity | ].
  cbn [fold_left]. rewrite Hc, accumulate_nan. exact IH.
Qed.

(** X21.  A mesh whose world corners are all [nan] is ignored by the union
    loop: the box is the one of the other objects. *)
Theorem computeUnionBounds_skips_nan (objs objs' : list Object) (obj : Object) :
  Forall (fun c => c = mkVector NaN NaN NaN) (world_corners obj) ->
  computeUnionBounds (objs ++ obj :: objs') = computeUnionBounds (objs ++ objs').
Proof.
  intros Hnan. unfold computeUnionBounds. rewrite !fold_left_app.
  cbn [fold_left]. unfold accumulate_object at 2.
  rewrite (fold_accumulate_nan _ _ Hnan). reflexivity.
Qed.

Lemma computeUnionBounds_skips_nan_witness :
  computeUnionBounds ([trunk] ++ lost :: [crown]) =
  computeUnionBounds ([trunk] ++ [crown]).
Proof.
  apply (computeUnionBounds_skips_nan [trunk] [crown] lost).
  vm_compute. repeat constructor.
Defined.

(** ** The texture loop *)

Lemma src_inj f g :
  relative f -> relative g ->
  os_path_join texture_src f = os_path_join texture_src g -> f = g.
Proof.
  intros Hf Hg. rewrite (join_texture_src f Hf), (join_texture_src g Hg).
  intros H. apply String.app_inj in H. apply String.app_inj in H. exact H.
Qed.

(** X14.  For relative texture names, a source path is never a destination
    path, two different names have different destination paths and two
    different names have different source paths. *)
Theorem texture_paths_distinct (f g : string) :
  relative f -> relative g ->
  os_path_join texture_src f <> os_path_join export_dir g /\
  (os_path_join export_dir f = os_path_join export_dir g -> f = g) /\
  (os_path_join texture_src f = os_path_join texture_src g -> f = g).
Proof.
  intros Hf Hg. split; [ apply src_ne_dst; assumption | ].
  split; [ apply dst_inj; assumption | apply src_inj; assumption ].
Qed.

Lemma texture_paths_distinct_witness :
  os_path_join texture_src "TexturesCom_PineBark2_1K_ao.tif" <>
    os_path_join export_dir "TexturesCom_PineBark2_1K_height.tif" /\
  (os_path_join export_dir "TexturesCom_PineBark2_1K_ao.tif" =
     os_path_join export_dir "TexturesCom_PineBark2_1K_height.tif" ->
   "TexturesCom_PineBark2_1K_ao.tif"%string = "TexturesCom_PineBark2_1K_height.tif"%string) /\
  (os_path_join texture_src "TexturesCom_PineBark2_1K_ao.tif" =
     os_path_join texture_src "TexturesCom_PineBark2_1K_height.tif" ->
   "TexturesCom_PineBark2_1K_ao.tif"%string = "TexturesCom_PineBark2_1K_height.tif"%string).
Proof.
  apply (texture_paths_distinct "TexturesCom_PineBark2_1K_ao.tif"
                                "TexturesCom_PineBark2_1K_height.tif");
    reflexivity.
Defined.

(** X15.  When none of the listed files exists at the source, the loop
    returns and leaves the disk and the output as they were, whatever the
    names are. *)
Theorem copy_textures_nothing_present (files : list string) (h : Host) :
  Forall (fun f => exists_src (disk h) f = false) files ->
  copy_textures files h = Ok h.
Proof.
  induction 1 as [ | f files Hf Hfiles IH]; [ reflexivity | ].
  cbn [copy_textures]. unfold copy_texture. unfold exists_src in Hf.
  destruct (disk h !! os_path_join texture_src f); [ discriminate | exact IH ].
Qed.

Lemma copy_textures_nothing_present_witness :
  copy_textures texture_files (mkHost ∅ []) = Ok (mkHost ∅ []).
Proof.
  apply (copy_textures_nothing_present texture_files (mkHost ∅ [])).
  repeat constructor.
Defined.




Lemma join_absolute a f : startswith_sep f = true -> os_path_join a f = f.
Proof. unfold os_path_join. intros ->. reflexivity. Qed.

(** X18.  An absolute texture name makes the source path and the
    destination path the same path: when a regular file exists there, the
    loop stops with [SameFileError]; when nothing exists there, the name is
    skipped. *)
Theorem copy_textures_absolute_name (f : string) (rest : list string) (h : Host) :
  startswith_sep f = true ->
  isdir (disk h) f = false ->
  os_path_join texture_src f = os_path_join export_dir f /\
  copy_textures (f :: rest) h =
    if exists_src (disk h) f then Raise SameFileError else copy_textures rest h.
Proof.
  intros Habs Hfile.
  rewrite (join_absolute texture_src f Habs), (join_absolute export_dir f Habs).
  split; [ reflexivity | ].
  cbn [copy_textures]. unfold copy_texture, exists_src, copy2.
  rewrite (join_absolute texture_src f Habs), (join_absolute export_dir f Habs).
  rewrite Hfile.
  destruct (disk h !! f); [ | reflexivity ].
  rewrite String.eqb_refl. reflexivity.
Qed.

Lemma copy_textures_absolute_name_witness :
  os_path_join texture_src "/tmp/bark.tif" = os_path_join export_dir "/tmp/bark.tif" /\
  copy_textures ["/tmp/bark.tif"%string] (mkHost bark_disk []) =
    if exists_src (disk (mkHost bark_disk [])) "/tmp/bark.tif"
    then Raise SameFileError
    else copy_textures [] (mkHost bark_disk []).
Proof.
  apply (copy_textures_absolute_name "/tmp/bark.tif" [] (mkHost bark_disk []));
    reflexivity.
Defined.

(** X22.  A texture name with a directory in it is not a plain name: when
    the file exists at the source and the export directory has no such
    directory, the loop stops with [FileNotFoundError] and nothing is
    printed for the name. *)
Theorem copy_textures_subdirectory_name :
  exists_src sub_disk "sub/bark.tif" = true /\
  sub_disk !! export_dir = Some Directory /\
  copy_textures ["sub/bark.tif"%string] (mkHost sub_disk []) = Raise FileNotFoundError.
Proof. repeat split; vm_compute; reflexivity. Qed.

(** X23.  The copy keeps the permission bits of the source: a name listed
    twice whose source may only be read is copied once, and the second
    copy stops the loop with [PermissionError]. *)
Theorem copy_textures_read_only_twice :
  copyable leaf_disk "leaf.png" = true /\
  (exists h', copy_textures ["leaf.png"%string] (mkHost leaf_disk []) = Ok h' /\
              disk h' !! os_path_join export_dir "leaf.png" = Some (read_only "leaf") /\
              stdout h' = ["Copied: leaf.png"%string]) /\
  copy_textures ["leaf.png"; "leaf.png"]%string (mkHost leaf_disk []) = Raise PermissionError.
Proof.
  split; [ vm_compute; reflexivity | ]. split; [ | vm_compute; reflexivity ].
  assert (Hplain : Forall plain ["leaf.png"%string]) by plain_names.
  assert (Hnodup : List.NoDup ["leaf.png"%string]) by distinct_names.
  assert (Hdir : leaf_disk !! export_dir = Some Directory) by (vm_compute; reflexivity).
  assert (Hcan : Forall (fun f => copyable leaf_disk f = true) ["leaf.png"%string])
    by all_copyable.
  destruct (copy_textures_plain _ Hplain Hnodup (mkHost leaf_disk []) Hdir Hcan)
    as (h' & Hrun & Hout & Hcopy & _).
  exists h'. split; [ exact Hrun | ]. split.
  - rewrite (Hcopy "leaf.png"%string); [ vm_compute; reflexivity | left; reflexivity | ].
    vm_compute. reflexivity.
  - rewrite Hout. vm_compute. reflexivity.
Qed.
